(** * Actionize: reducers, action types and reducer composition

    A shallow embedding of the JavaScript sources.  The line numbers in
    the comments are those of [src/index.js], which holds four parts:

    - lines 1-283, the module-level functions: [createActionType],
      [reducer], [handle], [combine], [nest] and their plain policies;
    - lines 284-557, the class [ActionizeBuild]: [reducer], [combine],
      [nest];
    - lines 558-870, the class [Actionize] of the earlier generation:
      [_createActionType], [reducer];
    - lines 871-1071, the class [Actionize]: [buildActionType],
      [validateActionKey], [_reserveActionTypes].

    Conventions of the embedding.

    - A JavaScript value is a primitive or a reference into a store of
      objects; [===] on references is identity of the location.
    - Numbers are the integers (the counters and the literals the sources
      use); arithmetic is exact, as it is in JavaScript below 2^53.
    - Strings are sequences of 8-bit characters.
    - An object is its list of own enumerable properties, in the order in
      which [Object.keys] enumerates them (insertion order); inherited
      properties are not part of the model.
    - A function is a location in the store (its identity and its
      properties) together with its behaviour, a computation in the monad
      [M] of the store, the action-type registry and exceptions. *)

From Stdlib Require Import ZArith NArith Ascii String List Lia.
From stdpp Require Import base option list strings gmap pretty.

Set Default Proof Using "Type".
Set Warnings "-clear-no-such-hyp".

(** ** Characters and strings *)

Module Str.

Fixpoint chars (s : string) : list ascii :=
  match s with
  | EmptyString => []
  | String c s' => c :: chars s'
  end.

(** [s.match(/[...]/)] for a character class: some character of [s]
    satisfies [p]. *)
Definition has_char (p : ascii → bool) (s : string) : bool :=
  existsb p (chars s).

Definition is_empty (s : string) : bool :=
  match s with EmptyString => true | _ => false end.

(** [s[0] === c] *)
Definition starts_with (c : ascii) (s : string) : bool :=
  match s with
  | String c' _ => Ascii.eqb c' c
  | EmptyString => false
  end.

(** [s.split(sep)] for a one-character separator. *)
Fixpoint split (sep : ascii) (s : string) : list string :=
  match s with
  | EmptyString => [EmptyString]
  | String c s' =>
      if Ascii.eqb c sep then EmptyString :: split sep s'
      else match split sep s' with
           | [] => [String c EmptyString]
           | x :: xs => String c x :: xs
           end
  end.

(** [l.join('')] on a list of strings. *)
Definition concat (l : list string) : string :=
  foldr String.append EmptyString l.

End Str.

(** ** Values *)

Abbreviation loc := nat.

Inductive value :=
| VUndefined
| VNull
| VBool (b : bool)
| VNum (n : Z)
| VStr (s : string)
| VRef (l : loc).

Global Instance value_eq_dec : EqDecision value.
Proof. solve_decision. Defined.

(** [a === b] *)
Definition strict_eq (a b : value) : bool := bool_decide (a = b).

(** [!!v] *)
Definition truthy (v : value) : bool :=
  match v with
  | VUndefined | VNull => false
  | VBool b => b
  | VNum n => negb (Z.eqb n 0)
  | VStr s => negb (Str.is_empty s)
  | VRef _ => true
  end.

(** [a && b] on values that are already evaluated. *)
Definition js_and (a b : value) : value := if truthy a then b else a.

(** The conversion of a value to a string, as [+] with a string, [join]
    and the use of a value as a property key perform it.  An object
    converts as the default [toString] does. *)
Definition to_string (v : value) : string :=
  match v with
  | VUndefined => "undefined"
  | VNull => "null"
  | VBool true => "true"
  | VBool false => "false"
  | VNum n => pretty n
  | VStr s => s
  | VRef _ => "[object Object]"
  end.

(** The [n]-th actual argument of a call; a missing one is [undefined]. *)
Definition arg (n : nat) (args : list value) : value :=
  default VUndefined (args !! n).

(** A parameter with a default, [(x = d) => ...]. *)
Definition default_param (v d : value) : value :=
  match v with VUndefined => d | _ => v end.

(** ** Objects and the store *)

Record object := {
  callable : bool;                   (* [typeof o === 'function'] *)
  props : list (string * value)      (* own enumerable properties *)
}.

Abbreviation heap := (list object).

Fixpoint assoc_get {A} (k : string) (ps : list (string * A)) : option A :=
  match ps with
  | [] => None
  | (k', v) :: ps' => if String.eqb k' k then Some v else assoc_get k ps'
  end.

(** [o[k] = v]: an existing property keeps its place, a new one is last. *)
Fixpoint assoc_set {A} (k : string) (v : A) (ps : list (string * A))
    : list (string * A) :=
  match ps with
  | [] => [(k, v)]
  | (k', v') :: ps' =>
      if String.eqb k' k then (k', v) :: ps' else (k', v') :: assoc_set k v ps'
  end.

(** The own enumerable properties of a value: those of the object a
    reference denotes, the characters of a string by index. *)
Definition own_props (h : heap) (v : value) : list (string * value) :=
  match v with
  | VRef l => match h !! l with Some o => props o | None => [] end
  | VStr s =>
      imap (λ i c, (pretty (N.of_nat i), VStr (String c ""))) (Str.chars s)
  | _ => []
  end.

(** [Object.keys(v)] *)
Definition keys (h : heap) (v : value) : list string := (own_props h v).*1.

(** [v[k]]; the sources read properties of values they know to be
    neither [undefined] nor [null]. *)
Definition get_prop (h : heap) (v : value) (k : string) : value :=
  default VUndefined (assoc_get k (own_props h v)).

(** [typeof v === 'function'] *)
Definition is_function (h : heap) (v : value) : bool :=
  match v with
  | VRef l => match h !! l with Some o => callable o | None => false end
  | _ => false
  end.

(** ** The module-level registry, lines 1-5 *)

Record registry := {
  globalActionTypeTicks : gmap string N;
  globalActionTypes : gset string
}.

(** ** The monad of the program: store, registry, exceptions *)

Inductive error :=
| NamespaceNotString
| NamespaceReserved
| KeyReserved
| KeyNotString
| DefinedTwice (type : string)
| TypeError.

Global Instance error_eq_dec : EqDecision error.
Proof. solve_decision. Defined.

Record world := {
  store : heap;
  globals : registry
}.

Definition empty_world : world :=
  {| store := [];
     globals := {| globalActionTypeTicks := ∅; globalActionTypes := ∅ |} |}.

Inductive outcome (A : Type) :=
| Ret (a : A) (w : world)
| Throw (e : error) (w : world).
Arguments Ret {A} a w.
Arguments Throw {A} e w.

Definition M (A : Type) : Type := world → outcome A.

Global Instance M_ret : MRet M := λ A a w, Ret a w.
Global Instance M_bind : MBind M := λ A B f m w,
  match m w with
  | Ret a w' => f a w'
  | Throw e w' => Throw e w'
  end.
Global Instance M_throw : MThrow error M := λ A e w, Throw e w.

(** Reading the store, and updating it. *)
Definition read {A} (f : heap → A) : M A := λ w, Ret (f (store w)) w.
Definition write (f : heap → heap) : M unit :=
  λ w, Ret () {| store := f (store w); globals := globals w |}.

(** A new object; its location is the next free one. *)
Definition alloc (o : object) : M loc :=
  λ w, Ret (length (store w))
           {| store := store w ++ [o]; globals := globals w |}.

(** [o[k] = v] in the store, for a reference [l] to [o]. *)
Definition heap_set (l : loc) (k : string) (v : value) (h : heap) : heap :=
  match h !! l with
  | Some o =>
      <[l := {| callable := callable o; props := assoc_set k v (props o) |}]> h
  | None => h
  end.

(** [target[k] = v].  In strict code the assignment to a property of a
    primitive raises a [TypeError]. *)
Definition set_prop (target : value) (k : string) (v : value) : M unit :=
  match target with
  | VRef l => write (heap_set l k v)
  | _ => mthrow TypeError
  end.

(** [array.push(v)] *)
Definition push (array : value) (v : value) : M unit :=
  n ← read (λ h, length (own_props h array));
  set_prop array (pretty (N.of_nat n)) v.

Fixpoint foldM {A B} (f : A → B → M A) (a : A) (l : list B) : M A :=
  match l with
  | [] => mret a
  | b :: l' => a' ← f a b; foldM f a' l'
  end.

(** ** Functions *)

(** The behaviour of a function: receiver and actual arguments. *)
Definition behaviour : Type := value → list value → M value.

Record jsfun := {
  fn_loc : loc;
  fn_call : behaviour
}.

(** A value handed to the library where it expects a function: a function
    with its behaviour, or a value that is not one. *)
Inductive jsarg :=
| Fun (f : jsfun)
| Val (v : value).

Definition value_of (a : jsarg) : value :=
  match a with
  | Fun f => VRef (fn_loc f)
  | Val v => v
  end.

(** [a.call(this, ...args)]; calling what is not a function raises. *)
Definition call (a : jsarg) (this : value) (args : list value) : M value :=
  match a with
  | Fun f => fn_call f this args
  | Val _ => mthrow TypeError
  end.

Definition call_opt (f : option jsfun) (this : value) (args : list value)
    : M value :=
  match f with
  | Some f => fn_call f this args
  | None => mthrow TypeError
  end.

(** A dispatch table, as the closure of a reducer holds it: action type to
    the handlers registered for it, in order of registration. *)
Definition table : Type := list (string * list jsarg).

Definition table_push (name : string) (handler : jsarg) (t : table) : table :=
  assoc_set name (default [] (assoc_get name t) ++ [handler]) t.

(** [key.split('|').filter(key => !!key).map(key => '|' + key)] *)
Definition composite_types (key : string) : list string :=
  map (String "|")
    (List.filter (λ k, negb (Str.is_empty k)) (Str.split "|" key)).

(** ** The module-level functions, lines 1-283 *)

Module Index.

(** [/[\#\:\|]/] and [/[\#\:\.\|]/] *)
Definition namespace_reserved (c : ascii) : bool :=
  Ascii.eqb c "#" || Ascii.eqb c ":" || Ascii.eqb c "|".
Definition key_reserved (c : ascii) : bool :=
  Ascii.eqb c "#" || Ascii.eqb c ":" || Ascii.eqb c "." || Ascii.eqb c "|".

(** ['|' + prefix + (tick === 1 ? '' : '#' + tick)] *)
Definition type_name (prefix : string) (tick : N) : string :=
  "|" +:+ prefix +:+ (if (tick =? 1)%N then "" else "#" +:+ pretty tick).

(** Lines 15-32.  The key is a string: [reducer] takes it from
    [Object.keys]. *)
Definition createActionType (namespace : value) (key : string) : M string :=
  λ w,
  match namespace with
  | VStr ns =>
      if Str.has_char namespace_reserved ns then Throw NamespaceReserved w
      else if Str.is_empty key || Str.has_char key_reserved key
      then Throw KeyReserved w
      else
        let g := globals w in
        let prefix := ns +:+ ":" +:+ key in
        let tick := (default 0 (globalActionTypeTicks g !! prefix) + 1)%N in
        let name := type_name prefix tick in
        Ret name
          {| store := store w;
             globals :=
               {| globalActionTypeTicks :=
                    <[prefix := tick]> (globalActionTypeTicks g);
                  globalActionTypes := {[name]} ∪ globalActionTypes g |} |}
  | _ => Throw NamespaceNotString w
  end.

(** Lines 56-63: the function [reducerFunc] that [reducer] returns, over
    the initial state and the dispatch table it closes over. *)
Fixpoint run_handlers (handlers : list jsarg) (state action : value)
    : M value :=
  match handlers with
  | [] => mret state
  | handler :: handlers' =>
      state' ← call handler VUndefined [state; action];
      run_handlers handlers' state' action
  end.

Definition reducerFunc (initialState : value) (actionHandlers : table)
    : behaviour :=
  λ _ args,
    let state := default_param (arg 0 args) initialState in
    let action := arg 1 args in
    actionType ← read (λ h, js_and action (get_prop h action "type"));
    if truthy actionType then
      match assoc_get (to_string actionType) actionHandlers with
      | Some handlers => run_handlers handlers state action
      | None => mret state
      end
    else mret state.

(** Lines 76-79: one registration, in the table object of the store and in
    the table the closure folds over. *)
Definition register (actionHandlers : loc) (actionHandler : jsarg)
    (t : table) (name : string) : M table :=
  found ← read (λ h, get_prop h (VRef actionHandlers) name);
  list ← (if truthy found then mret found
          else l ← alloc {| callable := false; props := [] |};
               set_prop (VRef actionHandlers) name (VRef l);;
               mret (VRef l));
  push list (value_of actionHandler);;
  mret (table_push name actionHandler t).

(** Lines 65-80: the body of the loop over [Object.keys(actions)]. *)
Definition reducer_step (namespace : value) (reducerFunc actionHandlers : loc)
    (t : table) (entry : string * jsarg) : M table :=
  let '(key, actionHandler) := entry in
  actionTypes ←
    (if Str.starts_with "|" key then mret (composite_types key)
     else
       actionType ← createActionType namespace key;
       set_prop (value_of actionHandler) "type" (VStr actionType);;
       set_prop (VRef reducerFunc) key (value_of actionHandler);;
       mret [actionType]);
  foldM (register actionHandlers actionHandler) t actionTypes.

(** Lines 52-85.  The action map is the list of its entries in the order
    of [Object.keys]. *)
Definition reducer (namespace initialState : value)
    (actions : list (string * jsarg)) : M jsfun :=
  actionHandlers ← alloc {| callable := false; props := [] |};
  reducerFunc_loc ← alloc {| callable := true; props := [] |};
  t ← foldM (reducer_step namespace reducerFunc_loc actionHandlers) [] actions;
  set_prop (VRef reducerFunc_loc) "_actionizeNamespace" namespace;;
  set_prop (VRef reducerFunc_loc) "_actionizeHandlers" (VRef actionHandlers);;
  mret {| fn_loc := reducerFunc_loc; fn_call := reducerFunc initialState t |}.

(** Lines 135-153. *)
Definition handle_item (h : heap) (item : value) : value :=
  match item with
  | VStr _ => item
  | _ =>
      if truthy item then
        let type := get_prop h item "type" in
        if truthy type then type
        else
          let handlers := get_prop h item "_actionizeHandlers" in
          if truthy handlers then VStr (Str.concat (keys h handlers))
          else VUndefined
      else VUndefined
  end.

Definition handle (h : heap) (items : list value) : string :=
  Str.concat
    (map to_string (List.filter truthy (map (handle_item h) items))).

(** Lines 181-200.  The reducer map is the list of its entries;
    [reducers[key]] is a lookup in it. *)
Fixpoint combine_each (reducers : list (string * jsfun)) (pick : behaviour)
    (values : loc) (state action : value) (reducerKeys : list string)
    (updated : bool) : M bool :=
  match reducerKeys with
  | [] => mret updated
  | key :: reducerKeys' =>
      subState ← pick VUndefined [state; VStr key];
      newState ← call_opt (assoc_get key reducers) VUndefined [subState; action];
      let updated' := if strict_eq subState newState then updated else true in
      set_prop (VRef values) key newState;;
      combine_each reducers pick values state action reducerKeys' updated'
  end.

Definition combined (reducers : list (string * jsfun)) (pick join : behaviour)
    : behaviour :=
  λ _ args,
    let state := arg 0 args in
    let action := arg 1 args in
    values ← alloc {| callable := false; props := [] |};
    updated ← combine_each reducers pick values state action reducers.*1 false;
    if updated : bool then join VUndefined [state; VRef values]
    else mret state.

Definition combine (reducers : list (string * jsfun)) (pick join : behaviour)
    : M jsfun :=
  f ← alloc {| callable := true; props := [] |};
  mret {| fn_loc := f; fn_call := combined reducers pick join |}.

(** [(state, key) => state && state[key]] *)
Definition pick_plain : behaviour :=
  λ _ args,
    let state := arg 0 args in
    let key := arg 1 args in
    read (λ h, js_and state (get_prop h state (to_string key))).

(** [(state, values) => values] *)
Definition join_combine_plain : behaviour :=
  λ _ args, mret (arg 1 args).

(** Lines 209-213. *)
Definition combine_plain (reducers : list (string * jsfun)) : M jsfun :=
  combine reducers pick_plain join_combine_plain.

(** Lines 246-252. *)
Definition nested (parent : jsfun) (nestedReducer : jsfun) : behaviour :=
  λ _ args,
    let state := arg 0 args in
    let action := arg 1 args in
    parentState ← fn_call parent VUndefined [state; action];
    fn_call nestedReducer VUndefined [parentState; action].

Definition nest (parent : jsfun) (reducers : list (string * jsfun))
    (pick join : behaviour) : M jsfun :=
  nestedReducer ← combine reducers pick join;
  f ← alloc {| callable := true; props := [] |};
  mret {| fn_loc := f; fn_call := nested parent nestedReducer |}.

(** [Object.assign(target, ...sources)] for a target that is an object. *)
Definition assign_from (target : value) (source : value) : M unit :=
  ps ← read (λ h, own_props h source);
  foldM (λ _ p, set_prop target p.1 p.2) () ps.

Definition object_assign (target : value) (sources : list value) : M value :=
  foldM (λ _ source, assign_from target source) () sources;;
  mret target.

(** [(state, values) => Object.assign({}, state, values)] *)
Definition join_nest_plain : behaviour :=
  λ _ args,
    let state := arg 0 args in
    let values := arg 1 args in
    target ← alloc {| callable := false; props := [] |};
    object_assign (VRef target) [state; values].

(** Lines 262-267. *)
Definition nest_plain (parent : jsfun) (reducers : list (string * jsfun))
    : M jsfun :=
  nest parent reducers pick_plain join_nest_plain.

(** [typeof v === 'object'] *)
Definition is_object (h : heap) (v : value) : bool :=
  match v with
  | VNull => true
  | VRef _ => negb (is_function h v)
  | _ => false
  end.

(** [Object.keys(v)] as a statement: it raises for [undefined] and
    [null]. *)
Definition object_keys (v : value) : M (list string) :=
  match v with
  | VUndefined | VNull => mthrow TypeError
  | _ => read (λ h, keys h v)
  end.

(** Line 104: [args => dispatch({ ...args, type: value.type })]. *)
Definition invoker (dispatch : jsfun) (value : value) : behaviour :=
  λ _ args,
    let args := arg 0 args in
    copy ← read (λ h, assoc_set "type" (get_prop h value "type")
                        (own_props h args));
    message ← alloc {| callable := false; props := copy |};
    fn_call dispatch VUndefined [VRef message].

(** Lines 95-112.  A call returns the object [result] and, with it, the
    functions it has made, each at its location.  The recursion follows
    the object graph: [fuel] bounds its depth, and [None] is a run that
    needs more. *)
Fixpoint dispatcher_each
    (self : value → M (option (value * list jsfun))) (dispatch : jsfun)
    (actions : value) (result : loc) (ks : list string) (made : list jsfun)
    : M (option (list jsfun)) :=
  match ks with
  | [] => mret (Some made)
  | key :: ks' =>
      value ← read (λ h, get_prop h actions key);
      let nested :=
        sub ← self value;
        match sub with
        | Some (nested, made') =>
            set_prop (VRef result) key nested;;
            dispatcher_each self dispatch actions result ks' (made ++ made')
        | None => mret None
        end in
      is_fn ← read (λ h, is_function h value);
      if is_fn : bool then
        handlers ← read (λ h, get_prop h value "_actionizeHandlers");
        if truthy handlers then nested
        else
          type ← read (λ h, get_prop h value "type");
          if truthy type then
            i ← alloc {| callable := true; props := [] |};
            set_prop (VRef result) key (VRef i);;
            dispatcher_each self dispatch actions result ks'
              (made ++ [{| fn_loc := i; fn_call := invoker dispatch value |}])
          else dispatcher_each self dispatch actions result ks' made
      else
        is_obj ← read (λ h, is_object h value);
        if is_obj : bool then nested
        else dispatcher_each self dispatch actions result ks' made
  end.

Fixpoint dispatcher (fuel : nat) (dispatch : jsfun) (actions : value)
    : M (option (value * list jsfun)) :=
  match fuel with
  | O => mret None
  | S fuel' =>
      result ← alloc {| callable := false; props := [] |};
      ks ← object_keys actions;
      made ← dispatcher_each (dispatcher fuel' dispatch) dispatch actions
                result ks [];
      mret (option_map (λ made, (VRef result, made)) made)
  end.

End Index.

(** ** The class [Actionize], lines 871-1071 *)

Module Actionize.

(** The fields of an instance that the validation of reducers uses. *)
Record instance := {
  _actionTypes : gset string;
  _reducersReserved : list value
}.


(** Lines 1064-1071, [static validateActionKey(key)]. *)
Definition validateActionKey (key : value) : M unit :=
  match key with
  | VStr k =>
      if Str.has_char Index.key_reserved k then mthrow KeyReserved
      else mret ()
  | _ => mthrow KeyNotString
  end.

(** Lines 1034-1037, [static buildActionType(namespace, key)]. *)
Definition buildActionType (namespace key : value) : M string :=
  validateActionKey key;;
  mret ("|" +:+ to_string namespace +:+ ":" +:+ to_string key).



(** Lines 953-986, [dispatcher(actions, dispatch)].  The arrays
    [processedItems] and [processedResults] are one list of pairs;
    [indexOf] finds the first item that is strictly equal.  The invoker is
    that of the module level. *)
Fixpoint processed_find (v : value) (processed : list (value * value))
    : option value :=
  match processed with
  | [] => None
  | (item, result) :: processed' =>
      if strict_eq item v then Some result else processed_find v processed'
  end.

Fixpoint dispatcherLevel_each
    (self : value → list (value * value)
            → M (option (value * list (value * value) * list jsfun)))
    (dispatch : jsfun) (actions : value) (result : loc) (ks : list string)
    (processed : list (value * value)) (made : list jsfun)
    : M (option (list (value * value) * list jsfun)) :=
  match ks with
  | [] => mret (Some (processed, made))
  | key :: ks' =>
      value ← read (λ h, get_prop h actions key);
      match processed_find value processed with
      | Some processedResult =>
          set_prop (VRef result) key processedResult;;
          dispatcherLevel_each self dispatch actions result ks' processed made
      | None =>
          is_fn ← read (λ h, is_function h value);
          type ← read (λ h, get_prop h value "type");
          if is_fn && truthy type then
            i ← alloc {| callable := true; props := [] |};
            set_prop (VRef result) key (VRef i);;
            dispatcherLevel_each self dispatch actions result ks'
              (processed ++ [(value, VRef i)])
              (made ++ [{| fn_loc := i;
                           fn_call := Index.invoker dispatch value |}])
          else
            is_obj ← read (λ h, Index.is_object h value);
            if is_fn || is_obj then
              sub ← self value processed;
              match sub with
              | Some (nested, processed', made') =>
                  nestedKeys ← read (λ h, keys h nested);
                  match nestedKeys with
                  | [] =>
                      dispatcherLevel_each self dispatch actions result ks'
                        processed' (made ++ made')
                  | _ =>
                      set_prop (VRef result) key nested;;
                      dispatcherLevel_each self dispatch actions result ks'
                        (processed' ++ [(value, nested)]) (made ++ made')
                  end
              | None => mret None
              end
            else
              dispatcherLevel_each self dispatch actions result ks'
                processed made
      end
  end.

Fixpoint dispatcherLevel (fuel : nat) (dispatch : jsfun) (actions : value)
    (processed : list (value * value))
    : M (option (value * list (value * value) * list jsfun)) :=
  match fuel with
  | O => mret None
  | S fuel' =>
      result ← alloc {| callable := false; props := [] |};
      ks ← Index.object_keys actions;
      r ← dispatcherLevel_each (dispatcherLevel fuel' dispatch) dispatch
             actions result ks processed [];
      mret (option_map (λ r, (VRef result, r.1, r.2)) r)
  end.

Definition dispatcher (fuel : nat) (dispatch : jsfun) (actions : value)
    : M (option (value * list jsfun)) :=
  r ← dispatcherLevel fuel dispatch actions [];
  mret (option_map (λ r, (r.1.1, r.2)) r).

(** Lines 1047-1054, [static validateName(name)]; the errors are of the
    kinds of the namespace errors of [createActionType]. *)
Definition validateName (name : value) : M unit :=
  match name with
  | VStr n =>
      if Str.has_char Index.namespace_reserved n then mthrow NamespaceReserved
      else mret ()
  | _ => mthrow NamespaceNotString
  end.

End Actionize.

(** ** The class [ActionizeBuild], lines 284-557 *)

Module ActionizeBuild.

(** An instance: [this._name] and [this._options.context]. *)
Record build := {
  _name : value;
  context : option jsfun
}.

(** Lines 320-329. *)
Fixpoint run_handlers (handlers : list jsarg) (state action : value)
    : M value :=
  match handlers with
  | [] => mret state
  | handler :: handlers' =>
      state' ← call handler VUndefined [state; action];
      run_handlers handlers' state' action
  end.

Definition reducerFunc (initialState : value) (actionHandlers : table)
    : behaviour :=
  λ _ args,
    let state := default_param (arg 0 args) initialState in
    let action := arg 1 args in
    actionType ← read (λ h, js_and action (get_prop h action "type"));
    if truthy actionType then
      match assoc_get (to_string actionType) actionHandlers with
      | Some handlers => run_handlers handlers state action
      | None => mret state
      end
    else mret state.

(** Lines 335-339. *)
Definition actionCall (b : build) (actionHandler : jsfun) (reducerFunc : loc)
    : behaviour :=
  λ _ args,
    let state := arg 0 args in
    let action := arg 1 args in
    context ←
      match context b with
      | Some contextFunc =>
          fn_call contextFunc VUndefined
            [VRef (fn_loc actionHandler); VRef reducerFunc]
      | None => mret VNull
      end;
    fn_call actionHandler context [state; action].

(** Lines 331-353: the body of the loop over [Object.keys(actions)]. *)
Definition reducer_step (b : build) (reducerFunc : loc) (t : table)
    (entry : string * jsarg) : M table :=
  let '(key, actionHandler) := entry in
  match actionHandler with
  | Fun f =>
      if Str.is_empty key then mret t
      else
        c ← alloc {| callable := true; props := [] |};
        let actionCall :=
          {| fn_loc := c; fn_call := actionCall b f reducerFunc |} in
        actionTypes ←
          (if Str.starts_with "|" key then mret (composite_types key)
           else
             actionType ← Actionize.buildActionType (_name b) (VStr key);
             set_prop (VRef c) "type" (VStr actionType);;
             set_prop (VRef reducerFunc) key (VRef c);;
             mret [actionType]);
        mret (foldl (λ t name, table_push name (Fun actionCall) t) t
                actionTypes)
  | Val _ => mret t
  end.

(** Lines 316-356. *)
Definition reducer (b : build) (initialState : value)
    (actions : list (string * jsarg)) : M jsfun :=
  reducerFunc_loc ← alloc {| callable := true; props := [] |};
  t ← foldM (reducer_step b reducerFunc_loc) [] actions;
  mret {| fn_loc := reducerFunc_loc; fn_call := reducerFunc initialState t |}.

(** Lines 429-452. *)
Fixpoint combine_each (reducers : list (string * jsfun)) (pick : behaviour)
    (values : loc) (state action : value) (reducerKeys : list string)
    (updated : bool) : M bool :=
  match reducerKeys with
  | [] => mret updated
  | key :: reducerKeys' =>
      subState ← pick VUndefined [state; VStr key];
      newState ← call_opt (assoc_get key reducers) VUndefined [subState; action];
      let updated' := if strict_eq subState newState then updated else true in
      set_prop (VRef values) key newState;;
      combine_each reducers pick values state action reducerKeys' updated'
  end.

Definition combined (reducers : list (string * jsfun)) (pick join : behaviour)
    : behaviour :=
  λ _ args,
    let state := arg 0 args in
    let action := arg 1 args in
    values ← alloc {| callable := false; props := [] |};
    updated ← combine_each reducers pick values state action reducers.*1 false;
    if updated : bool then join VUndefined [state; VRef values]
    else mret state.

(** [reducers[key]] as a value. *)
Definition child_value (reducers : list (string * jsfun)) (key : string)
    : value :=
  match assoc_get key reducers with
  | Some r => VRef (fn_loc r)
  | None => VUndefined
  end.

Definition combine (reducers : list (string * jsfun)) (pick join : behaviour)
    : M jsfun :=
  reducerFunc ← alloc {| callable := true; props := [] |};
  foldM (λ _ key, set_prop (VRef reducerFunc) key (child_value reducers key))
    () reducers.*1;;
  mret {| fn_loc := reducerFunc; fn_call := combined reducers pick join |}.

(** Lines 505-521. *)
Definition nested (parent : jsfun) (nestedReducer : jsfun) : behaviour :=
  λ _ args,
    let state := arg 0 args in
    let action := arg 1 args in
    parentState ← fn_call parent VUndefined [state; action];
    fn_call nestedReducer VUndefined [parentState; action].

Definition copy_nested (reducerFunc : loc) (nestedReducer : value)
    (key : string) : M unit :=
  v ← read (λ h, get_prop h nestedReducer key);
  set_prop (VRef reducerFunc) key v.

Definition copy_action (reducerFunc : loc) (parent : value) (key : string)
    : M unit :=
  action ← read (λ h, get_prop h parent key);
  typed ← read (λ h, is_function h action && truthy (get_prop h action "type"));
  if typed : bool then set_prop (VRef reducerFunc) key action else mret ().

Definition nest (parent : jsfun) (reducers : list (string * jsfun))
    (pick join : behaviour) : M jsfun :=
  nestedReducer ← combine reducers pick join;
  reducerFunc ← alloc {| callable := true; props := [] |};
  nestedKeys ← read (λ h, keys h (VRef (fn_loc nestedReducer)));
  foldM (λ _ key, copy_nested reducerFunc (VRef (fn_loc nestedReducer)) key)
    () nestedKeys;;
  parentKeys ← read (λ h, keys h (VRef (fn_loc parent)));
  foldM (λ _ key, copy_action reducerFunc (VRef (fn_loc parent)) key)
    () parentKeys;;
  mret {| fn_loc := reducerFunc; fn_call := nested parent nestedReducer |}.

(** Lines 383-402. *)
Definition handle_item (h : heap) (item : value) : value :=
  match item with
  | VStr _ => item
  | _ =>
      if is_function h item then
        match get_prop h item "type" with
        | VStr type => VStr type
        | _ =>
            let handlerTypes :=
              map (λ handler, get_prop h handler "type")
                (List.filter
                   (λ item, is_function h item
                            && truthy (get_prop h item "type"))
                   (map (λ key, get_prop h item key) (keys h item))) in
            match handlerTypes with
            | [] => VUndefined
            | _ => VStr (Str.concat (map to_string handlerTypes))
            end
        end
      else VUndefined
  end.

Definition handle (h : heap) (items : list value) : string :=
  Str.concat
    (map to_string (List.filter truthy (map (handle_item h) items))).

End ActionizeBuild.

(** ** The class [Actionize] of the earlier generation, lines 558-870 *)

Module ActionizeLegacy.

(** An instance: [this._options.context].  The maps [_actionTypeTicks] and
    [_actionTypes] of the instance are the registry component of the world:
    the statements follow one instance. *)
Record instance := {
  context : option jsfun
}.

(** Lines 586-603: the statements of [createActionType], on the maps of
    the instance. *)
Definition _createActionType (namespace : value) (key : string) : M string :=
  Index.createActionType namespace key.

(** Lines 626-641. *)
Fixpoint run_handlers (i : instance) (handlers : list jsarg)
    (state action : value) : M value :=
  match handlers with
  | [] => mret state
  | handler :: handlers' =>
      this ←
        match context i with
        | Some contextFunc => fn_call contextFunc VUndefined [value_of handler]
        | None => mret VNull
        end;
      state' ← call handler this [state; action];
      run_handlers i handlers' state' action
  end.

Definition reducerFunc (i : instance) (initialState : value)
    (actionHandlers : table) : behaviour :=
  λ _ args,
    let state := default_param (arg 0 args) initialState in
    let action := arg 1 args in
    actionType ← read (λ h, js_and action (get_prop h action "type"));
    if truthy actionType then
      match assoc_get (to_string actionType) actionHandlers with
      | Some handlers => run_handlers i handlers state action
      | None => mret state
      end
    else mret state.

(** Line 651: [(state, action) => reducerFunc(state, { ...action, type })],
    over the behaviour of [reducerFunc]. *)
Definition actionCall (reducerFunc : behaviour) (actionType : string)
    : behaviour :=
  λ _ args,
    let state := arg 0 args in
    let action := arg 1 args in
    copy ← read (λ h, assoc_set "type" (VStr actionType) (own_props h action));
    message ← alloc {| callable := false; props := copy |};
    reducerFunc VUndefined [state; VRef message].

(** Lines 642-659: the body of the loop over [Object.keys(actions)].  The
    registration of lines 655-658 is that of [Index.register]. *)
Definition reducer_step (namespace : value) (reducerFunc actionHandlers : loc)
    (t : table) (entry : string * jsarg) : M table :=
  let '(key, actionHandler) := entry in
  actionTypes ←
    (if Str.starts_with "|" key then mret (composite_types key)
     else
       actionType ← _createActionType namespace key;
       actionCall ← alloc {| callable := true; props := [] |};
       set_prop (VRef actionCall) "type" (VStr actionType);;
       set_prop (value_of actionHandler) "type" (VStr actionType);;
       set_prop (VRef reducerFunc) key (VRef actionCall);;
       mret [actionType]);
  foldM (Index.register actionHandlers actionHandler) t actionTypes.

(** Lines 622-664. *)
Definition reducer (i : instance) (namespace initialState : value)
    (actions : list (string * jsarg)) : M jsfun :=
  actionHandlers ← alloc {| callable := false; props := [] |};
  reducerFunc_loc ← alloc {| callable := true; props := [] |};
  t ← foldM (reducer_step namespace reducerFunc_loc actionHandlers) [] actions;
  set_prop (VRef reducerFunc_loc) "_actionizeNamespace" namespace;;
  set_prop (VRef reducerFunc_loc) "_actionizeHandlers" (VRef actionHandlers);;
  mret {| fn_loc := reducerFunc_loc; fn_call := reducerFunc i initialState t |}.

End ActionizeLegacy.

(** ** Caller-side expressions, for concrete runs *)

(** A function expression: a new function object with behaviour [b]. *)
Definition new_function (b : behaviour) : M jsfun :=
  l ← alloc {| callable := true; props := [] |};
  mret {| fn_loc := l; fn_call := b |}.

(** An object literal. *)
Definition new_object (ps : list (string * value)) : M value :=
  l ← alloc {| callable := false; props := ps |};
  mret (VRef l).

(** [(state, action) => state] *)
Definition identity_handler : behaviour := λ _ args, mret (arg 0 args).


(** ** Vocabulary of the statements *)

(** The characters of the decimal numerals, as ['#' + tick] writes them. *)
Definition is_digit (c : ascii) : bool :=
  bool_decide (c ∈ Str.chars "0123456789").

(** What [createActionType] accepts as a namespace and as a key. *)
Definition valid_namespace (ns : string) : Prop :=
  ∀ c, c ∈ Str.chars ns → c ≠ "#"%char ∧ c ≠ ":"%char ∧ c ≠ "|"%char.
Definition valid_key (key : string) : Prop :=
  key ≠ "" ∧
  ∀ c, c ∈ Str.chars key →
    c ≠ "#"%char ∧ c ≠ ":"%char ∧ c ≠ "."%char ∧ c ≠ "|"%char.

(** What it rejects. *)
Definition rejected_namespace (namespace : value) : Prop :=
  match namespace with
  | VStr ns =>
      ∃ c, c ∈ Str.chars ns ∧ (c = "#"%char ∨ c = ":"%char ∨ c = "|"%char)
  | _ => True
  end.
Definition rejected_key (key : string) : Prop :=
  key = "" ∨
  ∃ c, c ∈ Str.chars key ∧
    (c = "#"%char ∨ c = ":"%char ∨ c = "."%char ∨ c = "|"%char).

(** The error kinds of the specification. *)
Definition InvalidNamespace (e : error) : Prop :=
  e = NamespaceNotString ∨ e = NamespaceReserved.
Definition InvalidKey (e : error) : Prop := e = KeyReserved.

(** The counter of a prefix, [globalActionTypeTicks[prefix] || 0]. *)
Definition tick_of (w : world) (prefix : string) : N :=
  default 0%N (globalActionTypeTicks (globals w) !! prefix).

(** A sequence of allocation requests, each served in the world its
    predecessors left, whether they succeeded or threw. *)
Fixpoint allocate_all (reqs : list (value * string)) (w : world)
    : list (error + string) * world :=
  match reqs with
  | [] => ([], w)
  | (namespace, key) :: reqs' =>
      match Index.createActionType namespace key w with
      | Ret name w' =>
          let '(rs, w'') := allocate_all reqs' w' in (inr name :: rs, w'')
      | Throw e w' =>
          let '(rs, w'') := allocate_all reqs' w' in (inl e :: rs, w'')
      end
  end.

(** How many of the requests ask for the pair [(ns, key)]. *)
Definition occurrences (ns key : string) (reqs : list (value * string)) : N :=
  N.of_nat (length (filter (λ r, r = (VStr ns, key)) reqs)).

(** The action type of the [n]-th allocation of a pair, in the words of
    the specification. *)
Definition nth_action_type (ns key : string) (n : N) : string :=
  let first := "|" +:+ ns +:+ ":" +:+ key in
  if (n =? 1)%N then first else first +:+ "#" +:+ pretty n.


(** The world in which [reducer] enters its loop: the table object and
    the function object are allocated. *)
Definition reducer_start (w : world) : world :=
  {| store := (store w ++ [{| callable := false; props := [] |}])
                ++ [{| callable := true; props := [] |}];
     globals := globals w |}.

(** The two builders that tag the handlers themselves: the module-level
    [reducer] and the method [reducer] of the earlier class. *)
Inductive tagging_builder :=
| ModuleReducer
| ClassReducer (i : ActionizeLegacy.instance).

Definition build_reducer (b : tagging_builder)
    : value → value → list (string * jsarg) → M jsfun :=
  match b with
  | ModuleReducer => Index.reducer
  | ClassReducer i => ActionizeLegacy.reducer i
  end.

Definition build_step (b : tagging_builder)
    : value → loc → loc → table → string * jsarg → M table :=
  match b with
  | ModuleReducer => Index.reducer_step
  | ClassReducer _ => ActionizeLegacy.reducer_step
  end.

(** What an input of [handle] resolves to: a literal string to itself, a
    value with a [type] to that type, a reducer to the types registered in
    its dispatch table, in their order, anything else to nothing. *)
Definition resolved_types (h : heap) (item : value) : list string :=
  match item with
  | VStr s => if Str.is_empty s then [] else [s]
  | _ =>
      if truthy item then
        let type := get_prop h item "type" in
        if truthy type then [to_string type]
        else
          let handlers := get_prop h item "_actionizeHandlers" in
          if truthy handlers then keys h handlers else []
      else []
  end.

(** The shape of an action type: the separator, then a non-empty text
    without separator. *)
Definition action_type_shape (t : string) : Prop :=
  ∃ body, t = String "|" body ∧ body ≠ "" ∧ "|"%char ∉ Str.chars body.

(** A decision procedure for the shape of action types. *)
Definition is_action_type (t : string) : bool :=
  match t with
  | String c body =>
      Ascii.eqb c "|" && negb (Str.is_empty body)
      && negb (Str.has_char (λ c, Ascii.eqb c "|") body)
  | EmptyString => false
  end.

(** Two reducers built in an empty world, as the tests of [handle] build
    them; the result names the two handlers of the first reducer and the
    second reducer. *)
Definition handle_scenario : M (loc * loc * loc) :=
  foo ← new_function identity_handler;
  bar ← new_function identity_handler;
  r1 ← Index.reducer (VStr "h3") (VNum 0) [("foo", Fun foo); ("bar", Fun bar)];
  baz ← new_function identity_handler;
  qux ← new_function identity_handler;
  r2 ← Index.reducer (VStr "h4") (VNum 0) [("baz", Fun baz); ("qux", Fun qux)];
  mret (fn_loc foo, fn_loc bar, fn_loc r2).

(** The loop of a combined reducer, observed: for each child key, in
    order, the sub-state picked and the state the child returned. *)
Fixpoint child_results (reducers : list (string * jsfun)) (pick : behaviour)
    (values : loc) (state action : value) (reducerKeys : list string)
    : M (list (string * value * value)) :=
  match reducerKeys with
  | [] => mret []
  | key :: reducerKeys' =>
      subState ← pick VUndefined [state; VStr key];
      newState ← call_opt (assoc_get key reducers) VUndefined [subState; action];
      set_prop (VRef values) key newState;;
      rest ← child_results reducers pick values state action reducerKeys';
      mret ((key, subState, newState) :: rest)
  end.

(** A child changed its sub-state: [subState !== newState]. *)
Definition changed (r : string * value * value) : bool :=
  negb (strict_eq r.1.2 r.2).

(** The world in which the loop of a combined reducer runs: the object
    [values] is allocated. *)
Definition combined_start (w : world) : world :=
  {| store := store w ++ [{| callable := false; props := [] |}];
     globals := globals w |}.

(** A function that leaves the object at [l] as it is. *)
Definition leaves (l : loc) (b : behaviour) : Prop :=
  ∀ this args w v w', b this args w = Ret v w' → store w' !! l = store w !! l.

(** Two caller-side functions and a world that holds their objects:
    [(state, action) => state] and [(state, action) => 1]. *)
Definition keep : jsfun :=
  {| fn_loc := 0%nat; fn_call := identity_handler |}.
Definition set_one : jsfun :=
  {| fn_loc := 1%nat; fn_call := λ _ _, mret (VNum 1) |}.
Definition two_functions : world :=
  {| store := [{| callable := true; props := [] |};
               {| callable := true; props := [] |}];
     globals := globals empty_world |}.

(** The content of a value, for comparing results with object literals:
    a reference is replaced by the properties of its object, to depth
    [fuel]. *)
#[local] Unset Elimination Schemes.
Inductive json :=
| JUndefined
| JNull
| JBool (b : bool)
| JNum (n : Z)
| JStr (s : string)
| JObject (ps : list (string * json)).
#[local] Set Elimination Schemes.

Fixpoint snapshot (fuel : nat) (h : heap) (v : value) : option json :=
  match v with
  | VUndefined => Some JUndefined
  | VNull => Some JNull
  | VBool b => Some (JBool b)
  | VNum n => Some (JNum n)
  | VStr s => Some (JStr s)
  | VRef l =>
      match fuel with
      | O => None
      | S fuel' =>
          ps ← mapM (λ p, j ← snapshot fuel' h p.2; Some (p.1, j))
                 (own_props h (VRef l));
          Some (JObject ps)
      end
  end.

(** The scenario of the specification for [nest]: a parent with initial
    state [{p: 1}], a child with initial state [{c: 2}] nested under the
    key [c] with the plain policy, called with no arguments. *)
Definition nest_scenario : M value :=
  parentInitial ← new_object [("p", VNum 1)];
  childInitial ← new_object [("c", VNum 2)];
  parent ← Index.reducer (VStr "parent") parentInitial [];
  child ← Index.reducer (VStr "child") childInitial [];
  nestedReducer ← Index.nest_plain parent [("c", child)];
  fn_call nestedReducer VUndefined [].

(** A property of a parent reducer that [ActionizeBuild.nest] copies: a
    function with a [type]. *)
Definition typed_action (h : heap) (parent : value) (key : string) : Prop :=
  key ∈ keys h parent ∧
  is_function h (get_prop h parent key) = true ∧
  truthy (get_prop h (get_prop h parent key) "type") = true.

(** The store after [o[key] = f key] for each of the keys, in order. *)
Definition set_all (l : loc) (f : string → value) (ks : list string) (h : heap)
    : heap :=
  foldl (λ h key, heap_set l key (f key) h) h ks.

(** A world in which the function [keep] is a reducer with one action:
    its property [setBar] is a function tagged with a type. *)
Definition tagged_parent : world :=
  {| store := [{| callable := true; props := [("setBar", VRef 2)] |};
               {| callable := true; props := [] |};
               {| callable := true; props := [("type", VStr "|r1:setBar")] |}];
     globals := globals empty_world |}.

(** A world with a plain object [{}] and the message
    [{type: '|ns:meta'}]. *)
Definition metadata_world : world :=
  {| store := [{| callable := false; props := [] |};
               {| callable := false; props := [("type", VStr "|ns:meta")] |}];
     globals := globals empty_world |}.

(** The registry is consistent when every type it has issued is the name
    of a prefix at a count that the counter of the prefix has reached. *)
Definition consistent (w : world) : Prop :=
  ∀ name, name ∈ globalActionTypes (globals w) →
    ∃ prefix n,
      name = Index.type_name prefix n ∧
      ("#"%char ∉ Str.chars prefix) ∧
      (n ≤ tick_of w prefix)%N.








(** ** Vocabulary of the further properties *)

(** The types that a sequence of requests was answered with. *)
Definition issued_types (rs : list (error + string)) : list string :=
  omap (λ r, match r with inr name => Some name | inl _ => None end) rs.

(** The world that a computation leaves, whether it returns or throws. *)
Definition world_of {A} (o : outcome A) : world :=
  match o with
  | Ret _ w => w
  | Throw _ w => w
  end.




(** The type that [ActionizeBuild.reducer] gives a direct key, and the
    types that a key names. *)
Definition build_type (name : value) (key : string) : string :=
  "|" +:+ to_string name +:+ ":" +:+ key.




Definition tagging_reducerFunc (b : tagging_builder)
    : value → table → behaviour :=
  match b with
  | ModuleReducer => Index.reducerFunc
  | ClassReducer i => ActionizeLegacy.reducerFunc i
  end.




(** The table object of a reducer mirrors its dispatch table: the object
    at [actionHandlers] has the types of the table as its keys, in the same
    order, and each of its values is an object made during the build, after
    the function object at [reducerFunc]; the keys of the function object
    are among [exposed]. *)
Definition mirrors (actionHandlers reducerFunc : loc) (exposed : list string)
    (t : table) (w : world) : Prop :=
  reducerFunc < length (store w) ∧
  actionHandlers < reducerFunc ∧
  (∀ k, k ∈ keys (store w) (VRef reducerFunc) → k ∈ exposed) ∧
  ∃ o, store w !! actionHandlers = Some o ∧
       (props o).*1 = t.*1 ∧
       Forall action_type_shape t.*1 ∧
       Forall (λ v, ∃ l, v = VRef l ∧ reducerFunc < l < length (store w))
         (props o).*2.



(** The store after [target[p.1] = p.2] for each of the properties [ps],
    in order. *)
Definition assign_all (target : loc) (ps : list (string * value)) (h : heap)
    : heap :=
  foldl (λ h p, heap_set target p.1 p.2 h) h ps.

(** A value of the store [h]: a primitive, or a reference to one of its
    objects. *)
Definition allocated (h : heap) (v : value) : Prop :=
  ∀ l, v = VRef l → l < length h.

(** A world with the state [{p: 1, c: 0}] of a parent and the values
    [{c: 2}] of its children. *)
Definition nested_state_world : world :=
  {| store := [{| callable := false;
                  props := [("p", VNum 1); ("c", VNum 0)] |};
               {| callable := false; props := [("c", VNum 2)] |}];
     globals := globals empty_world |}.

(** A computation that leaves the objects below [n] and the registry as
    they are, whether it returns or throws, and takes no object away. *)
Definition preserves {A} (n : nat) (m : M A) : Prop :=
  ∀ w, n ≤ length (store w) →
    globals (world_of (m w)) = globals w ∧
    length (store w) ≤ length (store (world_of (m w))) ∧
    ∀ l, l < n → store (world_of (m w)) !! l = store w !! l.

(** What [dispatcher] does with a value of the actions.  An action, a
    function with a [type] that is no reducer, gets an invoker; a reducer
    or an object is descended into; any other value is left out. *)
Definition is_action (h : heap) (v : value) : bool :=
  is_function h v && negb (truthy (get_prop h v "_actionizeHandlers"))
  && truthy (get_prop h v "type").

Definition descends (h : heap) (v : value) : bool :=
  (is_function h v && truthy (get_prop h v "_actionizeHandlers"))
  || (negb (is_function h v) && Index.is_object h v).

(** The properties of an object that are actions. *)
Definition action_props (h : heap) (ps : list (string * value))
    : list (string * value) :=
  List.filter (λ p, is_action h p.2) ps.

(** A world with the actions [{add: f, count: 3, plain: g}], where [f] is
    a function with the type [|t:add] and [g] a function without type, and
    with the object [{count: 3, nothing: null}]. *)
Definition actions_world : world :=
  {| store := [{| callable := false;
                  props := [("add", VRef 1); ("count", VNum 3);
                            ("plain", VRef 2)] |};
               {| callable := true; props := [("type", VStr "|t:add")] |};
               {| callable := true; props := [] |};
               {| callable := false;
                  props := [("count", VNum 3); ("nothing", VNull)] |}];
     globals := globals empty_world |}.

(** What [Actionize.dispatcher] does with a value it has not processed.  A
    function with a [type] gets an invoker; another function or an object
    is descended into; any other value is left out. *)
Definition is_typed (h : heap) (v : value) : bool :=
  is_function h v && truthy (get_prop h v "type").

Definition level_descends (h : heap) (v : value) : bool :=
  negb (is_typed h v) && (is_function h v || Index.is_object h v).

(** The processed items of a run over actions that are not descended
    into: each is a function with a [type], and its result is the invoker
    made for it, a function of the store [h'] beyond [n]; no invoker is the
    result of two items. *)
Definition invokers_of (dispatch : jsfun) (h : heap) (n : loc) (h' : heap)
    (processed : list (value * value)) (made : list jsfun) : Prop :=
  Forall2
    (λ e f, e.2 = VRef (fn_loc f) ∧
            fn_call f = Index.invoker dispatch e.1 ∧
            n < fn_loc f ∧
            is_function h' (VRef (fn_loc f)) = true ∧
            is_typed h e.1 = true)
    processed made ∧
  NoDup processed.*2.

(** A world with the actions [{add: f, plus: f, sub: g, count: 3}], where
    [f] is a function with the type [|t:add] and [g] a function with the
    type [|t:sub]. *)
Definition shared_actions_world : world :=
  {| store := [{| callable := false;
                  props := [("add", VRef 1); ("plus", VRef 1);
                            ("sub", VRef 2); ("count", VNum 3)] |};
               {| callable := true; props := [("type", VStr "|t:add")] |};
               {| callable := true; props := [("type", VStr "|t:sub")] |}];
     globals := globals empty_world |}.

(** * Properties *)

(** ** Strings *)

Lemma str_app_nil_l s : "" +:+ s = s.
Proof. reflexivity. Qed.

Lemma str_app_cons c s t : String c s +:+ t = String c (s +:+ t).
Proof. reflexivity. Qed.

Lemma str_chars_app s t : Str.chars (s +:+ t) = Str.chars s ++ Str.chars t.
Proof.
  induction s as [|c s IH]; [done|].
  rewrite str_app_cons. simpl. by rewrite IH.
Qed.

Lemma str_has_char_false p s :
  Str.has_char p s = false ↔ ∀ c, c ∈ Str.chars s → p c = false.
Proof.
  unfold Str.has_char. induction s as [|c s IH]; simpl.
  - split; [intros _ c Hc; by apply elem_of_nil in Hc|done].
  - rewrite orb_false_iff, IH. split.
    + intros [Hc Hs] d Hd. apply elem_of_cons in Hd as [->|Hd]; auto.
    + intros H. split; [apply H; left|intros d Hd; apply H; by right].
Qed.

Lemma str_has_char_true p s :
  Str.has_char p s = true ↔ ∃ c, c ∈ Str.chars s ∧ p c = true.
Proof.
  unfold Str.has_char. rewrite existsb_exists.
  split; intros (c & Hc & Hp); exists c; split; auto;
    by apply list_elem_of_In.
Qed.

Lemma str_app_assoc s t u : (s +:+ t) +:+ u = s +:+ t +:+ u.
Proof.
  induction s as [|c s IH]; [done|]. rewrite !str_app_cons. by rewrite IH.
Qed.

Lemma str_app_empty_r s : s +:+ "" = s.
Proof.
  induction s as [|c s IH]; [done|]. rewrite str_app_cons. by rewrite IH.
Qed.

Lemma str_is_empty_true s : Str.is_empty s = true ↔ s = "".
Proof. by destruct s. Qed.

(** Two strings free of the character [c], each followed by [c]: the
    first [c] of the whole delimits them. *)
Lemma str_app_sep_inj (c : ascii) s1 s2 t1 t2 :
  c ∉ Str.chars s1 → c ∉ Str.chars s2 →
  s1 +:+ String c t1 = s2 +:+ String c t2 → s1 = s2 ∧ t1 = t2.
Proof.
  revert s2. induction s1 as [|a s1 IH]; intros [|b s2] H1 H2;
    rewrite ?str_app_cons, ?str_app_nil_l; simpl in *.
  - by intros [=].
  - intros [= -> _]. exfalso. apply H2. left.
  - intros [= -> _]. exfalso. apply H1. left.
  - intros [= -> Heq]. apply IH in Heq as [-> ->]; [done| |].
    + intros Hin. apply H1. by right.
    + intros Hin. apply H2. by right.
Qed.

(** The same when each string is followed by the end or by [c]. *)
Lemma str_app_suffix_inj (c : ascii) s1 s2 t1 t2 :
  c ∉ Str.chars s1 → c ∉ Str.chars s2 →
  (t1 = "" ∨ ∃ r, t1 = String c r) → (t2 = "" ∨ ∃ r, t2 = String c r) →
  s1 +:+ t1 = s2 +:+ t2 → s1 = s2 ∧ t1 = t2.
Proof.
  revert s2. induction s1 as [|a s1 IH]; intros [|b s2] H1 H2 Ht1 Ht2;
    rewrite ?str_app_cons, ?str_app_nil_l; simpl.
  - done.
  - intros ->. destruct Ht1 as [[=]|[r [= -> _]]]. exfalso. apply H2. left.
  - intros <-. destruct Ht2 as [[=]|[r [= -> _]]]. exfalso. apply H1. left.
  - intros [= -> Heq]. apply IH in Heq as [-> ->]; [done| | |done|done].
    + intros Hin. apply H1. by right.
    + intros Hin. apply H2. by right.
Qed.

(** The decimal numeral of a number consists of digits. *)
Lemma pretty_N_char_digit x : is_digit (pretty_N_char x) = true.
Proof. unfold pretty_N_char. by repeat case_match. Qed.

Lemma pretty_N_go_digits x s :
  (∀ c, c ∈ Str.chars s → is_digit c = true) →
  ∀ c, c ∈ Str.chars (pretty_N_go x s) → is_digit c = true.
Proof.
  revert s. induction (N.lt_wf_0 x) as [x _ IH]; intros s Hs.
  destruct (decide (x = 0%N)) as [->|Hx].
  - by rewrite pretty_N_go_0.
  - rewrite pretty_N_go_step by lia. apply IH.
    + apply N.div_lt; lia.
    + intros c Hc. simpl in Hc. apply elem_of_cons in Hc as [->|Hc].
      * apply pretty_N_char_digit.
      * by apply Hs.
Qed.

Lemma pretty_N_digits (x : N) c :
  c ∈ Str.chars (pretty x) → is_digit c = true.
Proof.
  unfold pretty, pretty_N. case_decide.
  - intros Hc. simpl in Hc. apply list_elem_of_singleton in Hc as ->. done.
  - apply pretty_N_go_digits. intros c' Hc'. by apply elem_of_nil in Hc'.
Qed.

(** ** The monad *)

Lemma bind_unfold {A B} (m : M A) (f : A → M B) w :
  (m ≫= f) w =
  match m w with
  | Ret a w' => f a w'
  | Throw e w' => Throw e w'
  end.
Proof. reflexivity. Qed.

Lemma Ret_inv {A} (a b : A) (w w' : world) :
  Ret a w = Ret b w' → a = b ∧ w = w'.
Proof. by intros [= -> ->]. Qed.

Lemma bind_Ret_inv {A B} (m : M A) (f : A → M B) w b w' :
  (m ≫= f) w = Ret b w' → ∃ a w1, m w = Ret a w1 ∧ f a w1 = Ret b w'.
Proof. rewrite bind_unfold. destruct (m w); [eauto|done]. Qed.

Lemma set_prop_ref l k v w :
  set_prop (VRef l) k v w =
  Ret () {| store := heap_set l k v (store w); globals := globals w |}.
Proof. reflexivity. Qed.

(** ** The registry: [createActionType] *)

Lemma namespace_reserved_spec c :
  Index.namespace_reserved c = true ↔
  c = "#"%char ∨ c = ":"%char ∨ c = "|"%char.
Proof.
  unfold Index.namespace_reserved.
  rewrite !orb_true_iff, !Ascii.eqb_eq. tauto.
Qed.

Lemma key_reserved_spec c :
  Index.key_reserved c = true ↔
  c = "#"%char ∨ c = ":"%char ∨ c = "."%char ∨ c = "|"%char.
Proof.
  unfold Index.key_reserved.
  rewrite !orb_true_iff, !Ascii.eqb_eq. tauto.
Qed.

Lemma valid_namespace_spec ns :
  Str.has_char Index.namespace_reserved ns = false ↔ valid_namespace ns.
Proof.
  rewrite str_has_char_false. unfold valid_namespace.
  split; intros H c Hc; specialize (H c Hc).
  - apply not_true_iff_false in H. rewrite namespace_reserved_spec in H. tauto.
  - apply not_true_iff_false. rewrite namespace_reserved_spec. tauto.
Qed.

Lemma valid_key_spec key :
  Str.is_empty key || Str.has_char Index.key_reserved key = false ↔
  valid_key key.
Proof.
  rewrite orb_false_iff, str_has_char_false. unfold valid_key.
  split.
  - intros [He H]. split.
    + intros ->. done.
    + intros c Hc. specialize (H c Hc).
      apply not_true_iff_false in H. rewrite key_reserved_spec in H. tauto.
  - intros [He H]. split.
    + by destruct key.
    + intros c Hc. specialize (H c Hc).
      apply not_true_iff_false. rewrite key_reserved_spec. tauto.
Qed.

Lemma rejected_namespace_spec ns :
  Str.has_char Index.namespace_reserved ns = true ↔ rejected_namespace (VStr ns).
Proof.
  rewrite str_has_char_true. simpl.
  split; intros (c & Hc & H); exists c; split; auto;
    by apply namespace_reserved_spec.
Qed.

Lemma rejected_key_spec key :
  Str.is_empty key || Str.has_char Index.key_reserved key = true ↔
  rejected_key key.
Proof.
  rewrite orb_true_iff, str_has_char_true, str_is_empty_true.
  unfold rejected_key. split; (intros [?|(c & Hc & H)]; [by left|right]);
    exists c; split; auto; by apply key_reserved_spec.
Qed.

(** A successful allocation, in full. *)
Lemma createActionType_valid ns key w :
  valid_namespace ns → valid_key key →
  let prefix := ns +:+ ":" +:+ key in
  let name := Index.type_name prefix (tick_of w prefix + 1)%N in
  Index.createActionType (VStr ns) key w =
  Ret name
    {| store := store w;
       globals :=
         {| globalActionTypeTicks :=
              <[prefix := (tick_of w prefix + 1)%N]>
                (globalActionTypeTicks (globals w));
            globalActionTypes := {[name]} ∪ globalActionTypes (globals w) |} |}.
Proof.
  intros Hns Hkey. unfold Index.createActionType.
  apply valid_namespace_spec in Hns as ->.
  apply valid_key_spec in Hkey as ->. reflexivity.
Qed.

Lemma createActionType_Ret_inv namespace key w name w' :
  Index.createActionType namespace key w = Ret name w' →
  ∃ ns, namespace = VStr ns ∧ valid_namespace ns ∧ valid_key key.
Proof.
  unfold Index.createActionType. destruct namespace as [| | | |ns|]; try done.
  destruct (Str.has_char _ ns) eqn:Hns; [done|].
  destruct (Str.is_empty key || _) eqn:Hkey; [done|].
  intros _. exists ns. split; [done|].
  split; [by apply valid_namespace_spec|by apply valid_key_spec].
Qed.

Lemma createActionType_Throw_inv namespace key w e w' :
  Index.createActionType namespace key w = Throw e w' → w' = w.
Proof.
  unfold Index.createActionType. destruct namespace as [| | | |ns|];
    try by intros [= _ ->].
  destruct (Str.has_char _ ns); [by intros [= _ ->]|].
  destruct (Str.is_empty key || _); [by intros [= _ ->]|done].
Qed.

(** Distinct valid pairs have distinct prefixes. *)
Lemma prefix_inj ns1 key1 ns2 key2 :
  valid_namespace ns1 → valid_namespace ns2 →
  ns1 +:+ ":" +:+ key1 = ns2 +:+ ":" +:+ key2 → ns1 = ns2 ∧ key1 = key2.
Proof.
  intros H1 H2. apply str_app_sep_inj.
  - intros Hc. by destruct (H1 _ Hc) as (_ & ? & _).
  - intros Hc. by destruct (H2 _ Hc) as (_ & ? & _).
Qed.

Lemma prefix_no_hash ns key :
  valid_namespace ns → valid_key key →
  "#"%char ∉ Str.chars (ns +:+ ":" +:+ key).
Proof.
  intros Hns [_ Hkey]. rewrite str_chars_app. simpl.
  rewrite elem_of_app, elem_of_cons.
  intros [Hc|[Hc|Hc]]; [by destruct (Hns _ Hc)|done|by destruct (Hkey _ Hc)].
Qed.

(** The suffix of a name determines the counter. *)
Lemma type_name_inj p1 p2 n1 n2 :
  "#"%char ∉ Str.chars p1 → "#"%char ∉ Str.chars p2 →
  Index.type_name p1 n1 = Index.type_name p2 n2 → p1 = p2 ∧ n1 = n2.
Proof.
  intros H1 H2. unfold Index.type_name. rewrite !str_app_cons, !str_app_nil_l.
  intros [= Heq].
  apply str_app_suffix_inj with (c := "#"%char) in Heq as [-> Hs]; try done.
  - split; [done|].
    destruct (N.eqb_spec n1 1%N) as [->|?], (N.eqb_spec n2 1%N) as [->|?];
      try done.
    injection Hs as Hs. by apply (inj pretty) in Hs.
  - destruct (n1 =? 1)%N; [by left|right; eauto].
  - destruct (n2 =? 1)%N; [by left|right; eauto].
Qed.

Lemma nth_action_type_eq ns key n :
  nth_action_type ns key n = Index.type_name (ns +:+ ":" +:+ key) n.
Proof.
  unfold nth_action_type, Index.type_name.
  destruct (n =? 1)%N.
  - by rewrite !str_app_cons, !str_app_nil_l, str_app_empty_r.
  - rewrite !str_app_cons, !str_app_nil_l. f_equal.
Qed.

(** The counter of a pair counts its allocations. *)
Lemma allocate_all_tick ns key reqs w :
  valid_namespace ns → valid_key key →
  tick_of (allocate_all reqs w).2 (ns +:+ ":" +:+ key) =
  (tick_of w (ns +:+ ":" +:+ key) + occurrences ns key reqs)%N.
Proof.
  intros Hns Hkey. unfold occurrences.
  revert w. induction reqs as [|[namespace' key'] reqs IH]; intros w; simpl.
  - lia.
  - destruct (Index.createActionType namespace' key' w) as [name w'|e w'] eqn:Hc.
    + specialize (IH w'). destruct (allocate_all reqs w') as [rs w''].
      simpl in *. rewrite IH.
      destruct (createActionType_Ret_inv _ _ _ _ _ Hc)
        as (ns' & -> & Hns' & Hkey').
      rewrite createActionType_valid in Hc by done.
      injection Hc as _ <-.
      rewrite filter_cons. destruct (decide _) as [[= -> ->]|Hne].
      * unfold tick_of at 1. simpl. rewrite lookup_insert_eq. simpl.
        rewrite Nat2N.inj_succ. lia.
      * unfold tick_of at 1. simpl. rewrite lookup_insert_ne; [done|].
        intros Heq. apply prefix_inj in Heq as [-> ->]; done.
    + apply createActionType_Throw_inv in Hc as Hw. subst w'.
      specialize (IH w). destruct (allocate_all reqs w) as [rs w''].
      simpl in *. rewrite IH.
      rewrite filter_cons. destruct (decide _) as [[= -> ->]|Hne]; [|done].
      by rewrite createActionType_valid in Hc.
Qed.

(** C1.  Whatever requests the registry has served since a pair was last
    unknown to it, the next allocation of a valid pair succeeds; it
    returns ['|' + namespace + ':' + key] when it is the first of the pair
    and that string followed by ['#' + n] when it is the [n]-th; and the
    strings of different allocations of the pair differ. *)
Theorem createActionType_disambiguates
    (reqs : list (value * string)) (w0 : world) (ns key : string) :
  valid_namespace ns → valid_key key →
  tick_of w0 (ns +:+ ":" +:+ key) = 0%N →
  let w := (allocate_all reqs w0).2 in
  let n := (occurrences ns key reqs + 1)%N in
  let first := "|" +:+ ns +:+ ":" +:+ key in
  (∃ w', Index.createActionType (VStr ns) key w =
         Ret (nth_action_type ns key n) w') ∧
  nth_action_type ns key 1%N = first ∧
  (∀ m, (2 ≤ m)%N → nth_action_type ns key m = first +:+ "#" +:+ pretty m) ∧
  (∀ m, m ≠ n → nth_action_type ns key m ≠ nth_action_type ns key n).
Proof.
  intros Hns Hkey H0 w n first. repeat split.
  - rewrite createActionType_valid by done. eexists.
    rewrite nth_action_type_eq. subst w n.
    rewrite allocate_all_tick by done. rewrite H0.
    rewrite N.add_0_l. reflexivity.
  - intros m Hm. unfold nth_action_type.
    destruct (N.eqb_spec m 1%N); [lia|done].
  - intros m Hm. rewrite !nth_action_type_eq. intros Heq.
    apply type_name_inj in Heq as [_ ?]; [done| |]; by apply prefix_no_hash.
Qed.

Lemma createActionType_disambiguates_witness :
  let reqs := [(VStr "todos", "add"); (VNull, "x"); (VStr "todos", "add")] in
  (∃ w', Index.createActionType (VStr "todos") "add"
           (allocate_all reqs empty_world).2 = Ret "|todos:add#3" w') ∧
  nth_action_type "todos" "add" 1%N = "|todos:add".
Proof.
  assert (valid_namespace "todos") as Hns.
  { apply valid_namespace_spec. reflexivity. }
  assert (valid_key "add") as Hkey.
  { apply valid_key_spec. reflexivity. }
  pose proof (createActionType_disambiguates
    [(VStr "todos", "add"); (VNull, "x"); (VStr "todos", "add")]
    empty_world "todos" "add" Hns Hkey eq_refl) as (H1 & H2 & _).
  split; [exact H1|exact H2].
Defined.

(** C6.  A namespace that is not a string or holds one of [|], [:], [#],
    or a key that is empty or holds one of [|], [:], [#], [.], makes the
    allocation throw: the namespace error when the namespace is at fault,
    the key error otherwise; and the world it throws in is the world it
    was called in, so no type is issued and no counter moves. *)
Theorem createActionType_rejects (namespace : value) (key : string) (w : world) :
  rejected_namespace namespace ∨ rejected_key key →
  ∃ e, Index.createActionType namespace key w = Throw e w ∧
       (rejected_namespace namespace → InvalidNamespace e) ∧
       (¬ rejected_namespace namespace → InvalidKey e).
Proof.
  intros Hrej. unfold Index.createActionType.
  destruct namespace as [| | | |ns|];
    try (exists NamespaceNotString; split; [done|];
         split; [by left|intros []; exact I]).
  destruct (Str.has_char _ ns) eqn:Hns.
  - exists NamespaceReserved. split; [done|].
    split; [by right|]. intros []. by apply rejected_namespace_spec.
  - destruct Hrej as [Hrej|Hrej].
    { apply rejected_namespace_spec in Hrej. congruence. }
    apply rejected_key_spec in Hrej as ->.
    exists KeyReserved. split; [done|]. split; [|done].
    intros Hrej. apply rejected_namespace_spec in Hrej. congruence.
Qed.

Lemma createActionType_rejects_witness :
  ∃ e, Index.createActionType (VStr "todos") "a.b" empty_world
       = Throw e empty_world ∧ InvalidKey e.
Proof.
  assert (rejected_key "a.b") as Hkey.
  { apply rejected_key_spec. reflexivity. }
  assert (¬ rejected_namespace (VStr "todos")) as Hns.
  { intros H. apply rejected_namespace_spec in H. discriminate H. }
  destruct (createActionType_rejects (VStr "todos") "a.b" empty_world
              (or_intror Hkey)) as (e & He & _ & Hk).
  exists e. split; [exact He|exact (Hk Hns)].
Defined.

(** ** The module-level [reducer] *)

Ltac inv_bind H :=
  repeat
    (let a := fresh "a" in
     let w := fresh "w" in
     let Ha := fresh "Hstep" in
     apply bind_Ret_inv in H as (a & w & Ha & H)).

Lemma mret_inv {A} (a b : A) (w w' : world) :
  (mret a : M A) w = Ret b w' → a = b ∧ w = w'.
Proof. by intros [= -> ->]. Qed.


Lemma alloc_eq o w :
  alloc o w = Ret (length (store w))
                {| store := store w ++ [o]; globals := globals w |}.
Proof. reflexivity. Qed.





(** ** [handle] and the composite keys *)

Lemma split_nonempty sep s : Str.split sep s ≠ [].
Proof.
  destruct s as [|c s]; simpl; [done|].
  destruct (Ascii.eqb c sep); [done|]. by destruct (Str.split sep s).
Qed.

(** A text without separator runs into the first segment of what
    follows it. *)
Lemma split_app sep body rest :
  sep ∉ Str.chars body →
  Str.split sep (body +:+ rest) =
  match Str.split sep rest with
  | x :: xs => (body +:+ x) :: xs
  | [] => [body]
  end.
Proof.
  induction body as [|c body IH]; intros Hsep.
  - rewrite str_app_nil_l.
    destruct (Str.split sep rest) eqn:E; [by apply split_nonempty in E|done].
  - rewrite str_app_cons. simpl.
    destruct (Ascii.eqb_spec c sep) as [->|Hc].
    { exfalso. apply Hsep. left. }
    rewrite IH.
    + destruct (Str.split sep rest); [done|by rewrite str_app_cons].
    + intros Hin. apply Hsep. by right.
Qed.

Lemma composite_types_cons t rest :
  action_type_shape t →
  (rest = "" ∨ ∃ r, rest = String "|" r) →
  composite_types (t +:+ rest) = t :: composite_types rest.
Proof.
  intros (body & -> & Hne & Hsep) Hrest. unfold composite_types.
  rewrite str_app_cons. simpl. rewrite split_app by done.
  destruct Hrest as [->|[r ->]]; simpl.
  - rewrite str_app_empty_r. by destruct body.
  - rewrite str_app_empty_r. by destruct body.
Qed.

Lemma concat_shape ts :
  Forall action_type_shape ts →
  Str.concat ts = "" ∨ ∃ r, Str.concat ts = String "|" r.
Proof.
  intros [|t ts' (body & -> & _) _]; [by left|right].
  simpl. rewrite str_app_cons. eauto.
Qed.

(** Splitting the concatenation of action types gives them back. *)
Lemma composite_types_concat ts :
  Forall action_type_shape ts → composite_types (Str.concat ts) = ts.
Proof.
  induction 1 as [|t ts Ht Hts IH]; [done|].
  simpl. rewrite composite_types_cons; [by rewrite IH|done|].
  by apply concat_shape.
Qed.

Lemma concat_app l1 l2 :
  Str.concat (l1 ++ l2) = Str.concat l1 +:+ Str.concat l2.
Proof.
  induction l1 as [|s l1 IH]; [done|].
  simpl. by rewrite IH, str_app_assoc.
Qed.

Lemma handle_item_resolved h item :
  Str.concat (map to_string (List.filter truthy [Index.handle_item h item]))
  = Str.concat (resolved_types h item).
Proof.
  assert (∀ v, truthy v = true →
    Str.concat (map to_string (List.filter truthy
      [if truthy (get_prop h v "type") then get_prop h v "type"
       else if truthy (get_prop h v "_actionizeHandlers")
            then VStr (Str.concat (keys h (get_prop h v "_actionizeHandlers")))
            else VUndefined]))
    = Str.concat
        (if truthy (get_prop h v "type") then [to_string (get_prop h v "type")]
         else if truthy (get_prop h v "_actionizeHandlers")
              then keys h (get_prop h v "_actionizeHandlers") else [])) as Hobj.
  { intros v _.
    destruct (truthy (get_prop h v "type")) eqn:Ht; simpl; [by rewrite Ht|].
    destruct (truthy (get_prop h v "_actionizeHandlers")); simpl; [|done].
    destruct (Str.is_empty (Str.concat _)) eqn:He; simpl;
      [|by rewrite str_app_empty_r].
    apply str_is_empty_true in He. by rewrite He. }
  destruct item as [| |b|n|s|l]; try done.
  - destruct b; [by apply Hobj|done].
  - unfold Index.handle_item, resolved_types.
    destruct (truthy (VNum n)) eqn:Hn; [by apply Hobj|done].
  - simpl. by destruct (Str.is_empty s).
  - by apply Hobj.
Qed.

(** [handle] concatenates what its inputs resolve to. *)
Lemma handle_concat h items :
  Index.handle h items = Str.concat (flat_map (resolved_types h) items).
Proof.
  unfold Index.handle. induction items as [|item items IH]; [done|].
  simpl flat_map. rewrite concat_app, <- IH, <- handle_item_resolved.
  simpl. destruct (truthy (Index.handle_item h item)); simpl; [|done].
  by rewrite str_app_empty_r.
Qed.

(** The types that the registry issues have the shape of an action type. *)
Lemma createActionType_shape namespace key w t w' :
  Index.createActionType namespace key w = Ret t w' → action_type_shape t.
Proof.
  intros H.
  destruct (createActionType_Ret_inv _ _ _ _ _ H) as (ns & -> & Hns & Hkey).
  rewrite createActionType_valid in H by done.
  apply Ret_inv in H as [<- _].
  unfold Index.type_name. rewrite str_app_cons, str_app_nil_l.
  eexists. split; [done|]. split.
  - destruct ns; [|done]. rewrite str_app_nil_l. done.
  - rewrite !str_chars_app, !elem_of_app. simpl.
    intros [[Hc|[Hc|Hc]]|Hc].
    + by destruct (Hns _ Hc) as (_ & _ & ?).
    + by apply list_elem_of_singleton in Hc.
    + destruct Hkey as [_ Hkey]. by destruct (Hkey _ Hc) as (_ & _ & _ & ?).
    + destruct (_ =? 1)%N; simpl in Hc; [by apply elem_of_nil in Hc|].
      apply elem_of_cons in Hc as [?|Hc]; [done|].
      by apply pretty_N_digits in Hc.
Qed.

Lemma action_type_shape_truthy t : action_type_shape t → truthy (VStr t) = true.
Proof. by intros (body & -> & _). Qed.

Lemma resolved_types_tagged h l t :
  get_prop h (VRef l) "type" = VStr t → action_type_shape t →
  resolved_types h (VRef l) = [t].
Proof.
  intros Ht Hshape. unfold resolved_types. simpl. rewrite Ht.
  by rewrite (action_type_shape_truthy _ Hshape).
Qed.

(** C4.  [handle] returns the concatenation, without delimiter, of the
    types its inputs resolve to, in order: a literal string itself, the
    [type] of a tagged value, the types registered in the table of a
    reducer, nothing for the rest.  When those types have the shape of
    action types, splitting the result as [reducer] splits a composite key
    gives back the list of types; in particular the split of
    [handle(x, y)] is [[x.type; y.type]]. *)
Theorem handle_split_round_trip (h : heap) (items : list value) :
  Index.handle h items = Str.concat (flat_map (resolved_types h) items) ∧
  (Forall action_type_shape (flat_map (resolved_types h) items) →
   composite_types (Index.handle h items)
   = flat_map (resolved_types h) items) ∧
  (∀ x y tx ty,
     get_prop h (VRef x) "type" = VStr tx → action_type_shape tx →
     get_prop h (VRef y) "type" = VStr ty → action_type_shape ty →
     composite_types (Index.handle h [VRef x; VRef y]) = [tx; ty]).
Proof.
  split; [apply handle_concat|]. split.
  - intros Hshape. rewrite handle_concat. by apply composite_types_concat.
  - intros x y tx ty Hx Htx Hy Hty. rewrite handle_concat.
    cbn [flat_map].
    rewrite (resolved_types_tagged _ _ _ Hx Htx).
    rewrite (resolved_types_tagged _ _ _ Hy Hty).
    apply composite_types_concat. simpl. by repeat constructor.
Qed.

Lemma is_action_type_spec t : is_action_type t = true → action_type_shape t.
Proof.
  destruct t as [|c body]; [done|]. simpl.
  rewrite !andb_true_iff, !negb_true_iff, Ascii.eqb_eq.
  intros [[-> He] Hc]. exists body. split; [done|]. split.
  - intros ->. done.
  - intros Hin. rewrite str_has_char_false in Hc.
    specialize (Hc _ Hin). by rewrite Ascii.eqb_refl in Hc.
Qed.

Lemma handle_split_round_trip_witness :
  match handle_scenario empty_world with
  | Ret (foo, bar, r2) w =>
      composite_types
        (Index.handle (store w) [VRef foo; VStr ""; VRef r2; VNull; VRef bar])
      = ["|h3:foo"; "|h4:baz"; "|h4:qux"; "|h3:bar"]
  | Throw _ _ => False
  end.
Proof.
  destruct (handle_scenario empty_world) as [[[foo bar] r2] w|] eqn:E;
    vm_compute in E; [|discriminate E].
  apply Ret_inv in E as [[= <- <- <-] <-].
  match goal with
  | |- composite_types (Index.handle ?h ?items) = _ =>
      assert (Forall action_type_shape (flat_map (resolved_types h) items))
        as Hshape
  end.
  { vm_compute. repeat constructor; by apply is_action_type_spec. }
  match goal with
  | |- composite_types (Index.handle ?h ?items) = _ =>
      destruct (handle_split_round_trip h items) as (_ & Hsplit & _)
  end.
  rewrite (Hsplit Hshape). reflexivity.
Defined.

(** ** [combine] *)

Lemma combined_agree :
  ActionizeBuild.combined = Index.combined.
Proof. reflexivity. Qed.

Lemma nested_agree :
  ActionizeBuild.nested = Index.nested.
Proof. reflexivity. Qed.

Lemma combine_each_results reducers pick values state action keys updated w :
  Index.combine_each reducers pick values state action keys updated w =
  match child_results reducers pick values state action keys w with
  | Ret rs w' => Ret (updated || existsb changed rs) w'
  | Throw e w' => Throw e w'
  end.
Proof.
  revert updated w. induction keys as [|key keys IH]; intros updated w; simpl.
  - by rewrite orb_false_r.
  - rewrite !bind_unfold.
    destruct (pick _ _ w) as [subState w1|]; [|done].
    rewrite !bind_unfold.
    destruct (call_opt _ _ _ w1) as [newState w2|]; [|done].
    rewrite !bind_unfold. unfold write.
    rewrite IH, bind_unfold.
    destruct (child_results _ _ _ _ _ _ _) as [rs w4|]; [|done].
    simpl. unfold changed at 2. simpl.
    destruct (strict_eq subState newState); simpl; [done|].
    by rewrite orb_true_r.
Qed.

Lemma combined_results reducers pick join this args w :
  Index.combined reducers pick join this args w =
  match child_results reducers pick (length (store w)) (arg 0 args)
          (arg 1 args) reducers.*1 (combined_start w) with
  | Ret rs w' =>
      if existsb changed rs
      then join VUndefined [arg 0 args; VRef (length (store w))] w'
      else Ret (arg 0 args) w'
  | Throw e w' => Throw e w'
  end.
Proof.
  unfold Index.combined. rewrite bind_unfold, alloc_eq, bind_unfold.
  rewrite combine_each_results. fold (combined_start w).
  destruct (child_results _ _ _ _ _ _ _) as [rs w'|]; [|done].
  simpl. by destruct (existsb changed rs).
Qed.

Lemma existsb_changed_false rs :
  existsb changed rs = false ↔ Forall (λ r, r.1.2 = r.2) rs.
Proof.
  induction rs as [|r rs IH]; simpl.
  - split; [constructor|done].
  - rewrite orb_false_iff, IH, Forall_cons. unfold changed, strict_eq.
    rewrite negb_false_iff, bool_decide_eq_true. done.
Qed.

Lemma existsb_changed_true rs :
  existsb changed rs = true ↔ Exists (λ r, r.1.2 ≠ r.2) rs.
Proof.
  induction rs as [|r rs IH]; simpl.
  - split; [done|]. intros H. inversion H.
  - rewrite orb_true_iff, IH, Exists_cons. unfold changed, strict_eq.
    rewrite negb_true_iff, bool_decide_eq_false. done.
Qed.

(** Association lists. *)
Lemma assoc_get_set_eq {A} k (v : A) ps :
  assoc_get k (assoc_set k v ps) = Some v.
Proof.
  induction ps as [|[k' v'] ps IH]; simpl.
  - by rewrite String.eqb_refl.
  - destruct (String.eqb k' k) eqn:E; simpl; by rewrite E.
Qed.

Lemma assoc_get_set_ne {A} k k' (v : A) ps :
  k ≠ k' → assoc_get k (assoc_set k' v ps) = assoc_get k ps.
Proof.
  intros Hne. induction ps as [|[k'' v''] ps IH]; simpl.
  - destruct (String.eqb k' k) eqn:E; [|done].
    apply String.eqb_eq in E. congruence.
  - destruct (String.eqb k'' k') eqn:E; simpl.
    + apply String.eqb_eq in E as ->.
      destruct (String.eqb k' k) eqn:E'; [|done].
      apply String.eqb_eq in E'. congruence.
    + by rewrite IH.
Qed.

Lemma assoc_set_keys {A} k (v : A) ps :
  (assoc_set k v ps).*1 =
  if bool_decide (k ∈ ps.*1) then ps.*1 else ps.*1 ++ [k].
Proof.
  induction ps as [|[k' v'] ps IH]; csimpl; [done|].
  destruct (String.eqb k' k) eqn:E; csimpl.
  - apply String.eqb_eq in E as ->.
    rewrite bool_decide_eq_true_2; [done|left].
  - rewrite IH. apply String.eqb_neq in E.
    destruct (bool_decide (k ∈ ps.*1)) eqn:Hin.
    + rewrite bool_decide_eq_true_2; [done|].
      right. by apply bool_decide_eq_true in Hin.
    + rewrite bool_decide_eq_false_2; [done|].
      apply bool_decide_eq_false in Hin.
      rewrite elem_of_cons. intros [->|?]; done.
Qed.

(** The store under [o[k] = v]. *)
Lemma get_prop_heap_set_eq h l k v :
  l < length h → get_prop (heap_set l k v h) (VRef l) k = v.
Proof.
  intros Hl. destruct (lookup_lt_is_Some_2 h l Hl) as [o Ho].
  unfold get_prop, own_props, heap_set. rewrite Ho.
  rewrite list_lookup_insert_eq by done. simpl.
  by rewrite assoc_get_set_eq.
Qed.

Lemma get_prop_heap_set_ne h l k v l' k' :
  l ≠ l' ∨ k ≠ k' →
  get_prop (heap_set l k v h) (VRef l') k' = get_prop h (VRef l') k'.
Proof.
  intros Hne. unfold get_prop, own_props, heap_set.
  destruct (h !! l) as [o|] eqn:Ho; [|done].
  destruct (decide (l = l')) as [<-|Hl].
  - rewrite list_lookup_insert_eq by (by eapply lookup_lt_Some).
    rewrite Ho. simpl. rewrite assoc_get_set_ne; [done|].
    destruct Hne; congruence.
  - by rewrite list_lookup_insert_ne.
Qed.

Lemma heap_set_length h l k v : length (heap_set l k v h) = length h.
Proof.
  unfold heap_set. destruct (h !! l); [by rewrite length_insert|done].
Qed.

Lemma heap_set_lookup_ne h l k v l' :
  l ≠ l' → heap_set l k v h !! l' = h !! l'.
Proof.
  intros Hne. unfold heap_set.
  destruct (h !! l); [by rewrite list_lookup_insert_ne|done].
Qed.

Lemma get_prop_lookup h h' l k :
  h' !! l = h !! l → get_prop h' (VRef l) k = get_prop h (VRef l) k.
Proof. intros H. unfold get_prop, own_props. by rewrite H. Qed.


Lemma heap_set_is_Some h l k v l' :
  is_Some (h !! l') → is_Some (heap_set l k v h !! l').
Proof.
  intros Hl. unfold heap_set. destruct (h !! l) as [o|] eqn:Ho; [|done].
  destruct (decide (l = l')) as [<-|Hne].
  - rewrite list_lookup_insert_eq; [eauto|by eapply lookup_lt_Some].
  - by rewrite list_lookup_insert_ne.
Qed.

(** What the loop of a combined reducer leaves in the object [values]. *)
Lemma child_results_values reducers pick values state action keys w rs w' :
  leaves values pick →
  (∀ key r, assoc_get key reducers = Some r → leaves values (fn_call r)) →
  is_Some (store w !! values) →
  child_results reducers pick values state action keys w = Ret rs w' →
  rs.*1.*1 = keys ∧
  is_Some (store w' !! values) ∧
  (∀ k, k ∉ keys →
     get_prop (store w') (VRef values) k = get_prop (store w) (VRef values) k) ∧
  (NoDup keys →
   ∀ k s n, (k, s, n) ∈ rs → get_prop (store w') (VRef values) k = n).
Proof.
  intros Hpick Hred. revert w rs w'.
  induction keys as [|key keys IH]; intros w rs w' Hv H; simpl in H.
  - apply mret_inv in H as [<- <-]. repeat split; try done.
    intros _ k s n Hin. by apply elem_of_nil in Hin.
  - inv_bind H. apply mret_inv in H as [<- <-].
    destruct (assoc_get key reducers) as [r|] eqn:Hr; [|done].
    simpl in Hstep0. apply Ret_inv in Hstep1 as [_ <-].
    apply Hpick in Hstep. apply (Hred _ _ Hr) in Hstep0.
    assert (is_Some (store w1 !! values)) as Hv1.
    { rewrite Hstep0, Hstep. done. }
    apply IH in Hstep2 as (Hkeys & Hv' & Hother & Hnodup);
      [|by apply heap_set_is_Some].
    simpl in *. split; [by f_equal|]. split; [done|]. split.
    + intros k Hk. apply not_elem_of_cons in Hk as [Hne Hk].
      rewrite Hother by done.
      rewrite get_prop_heap_set_ne by (right; congruence).
      rewrite (get_prop_lookup _ _ _ _ Hstep0).
      by rewrite (get_prop_lookup _ _ _ _ Hstep).
    + intros Hnd k s n Hin. apply NoDup_cons in Hnd as [Hkey Hnd].
      apply elem_of_cons in Hin as [[= -> -> ->]|Hin].
      * rewrite Hother by done. apply get_prop_heap_set_eq.
        by apply lookup_lt_is_Some.
      * by eapply Hnodup.
Qed.

Lemma index_combine_closure reducers pick join w0 c w0' :
  Index.combine reducers pick join w0 = Ret c w0' →
  fn_call c = Index.combined reducers pick join.
Proof.
  unfold Index.combine. intros H. inv_bind H.
  by apply mret_inv in H as [<- _].
Qed.

Lemma build_combine_closure reducers pick join w0 c w0' :
  ActionizeBuild.combine reducers pick join w0 = Ret c w0' →
  fn_call c = Index.combined reducers pick join.
Proof.
  unfold ActionizeBuild.combine. intros H. inv_bind H.
  by apply mret_inv in H as [<- _].
Qed.

(** C2.  Let [c] be built by the module-level [combine] or by that
    of [ActionizeBuild], and let a call of [c] run its loop over the children
    to the end, with the picked sub-states and the returned states [rs].
    If every child returned the very sub-state it was given, the call
    returns the state it was given and its outcome is the same whatever
    [join] is (so [join] is not called).  If some child returned another
    value, the call is the call of [join] on the given state and the
    object [values]; and, the children and [pick] leaving that fresh object
    alone, its keys are the child keys and each holds the state that child
    returned. *)
Theorem combine_change_detection
    (reducers : list (string * jsfun)) (pick join : behaviour)
    (w0 : world) (c : jsfun) (w0' : world)
    (this : value) (args : list value) (w : world)
    (rs : list (string * value * value)) (w' : world) :
  Index.combine reducers pick join w0 = Ret c w0' ∨
  ActionizeBuild.combine reducers pick join w0 = Ret c w0' →
  let state := arg 0 args in
  let action := arg 1 args in
  let values := length (store w) in
  child_results reducers pick values state action reducers.*1
    (combined_start w) = Ret rs w' →
  (Forall (λ r, r.1.2 = r.2) rs →
     fn_call c this args w = Ret state w' ∧
     ∀ join', Index.combined reducers pick join' this args w = Ret state w') ∧
  (Exists (λ r, r.1.2 ≠ r.2) rs →
     fn_call c this args w = join VUndefined [state; VRef values] w' ∧
     (NoDup reducers.*1 →
      leaves values pick →
      (∀ key r, assoc_get key reducers = Some r → leaves values (fn_call r)) →
      rs.*1.*1 = reducers.*1 ∧
      ∀ key sub new, (key, sub, new) ∈ rs →
        get_prop (store w') (VRef values) key = new)).
Proof.
  intros Hc state action values Hrs.
  assert (fn_call c = Index.combined reducers pick join) as ->.
  { destruct Hc; [by eapply index_combine_closure
                 |by eapply build_combine_closure]. }
  split.
  - intros Hsame. apply existsb_changed_false in Hsame.
    split; [|intros join']; rewrite combined_results;
      fold state action values; by rewrite Hrs, Hsame.
  - intros Hch. apply existsb_changed_true in Hch. split.
    + rewrite combined_results. fold state action values.
      by rewrite Hrs, Hch.
    + intros Hnd Hpick Hred.
      apply child_results_values in Hrs as (Hkeys & _ & _ & Hvals);
        try done.
      * split; [done|]. by apply Hvals.
      * unfold combined_start. simpl. subst values.
        rewrite lookup_app_r by done. rewrite Nat.sub_diag. by eexists.
Qed.

Lemma leaves_pick_plain l : leaves l Index.pick_plain.
Proof. intros this args w v w' H. by apply Ret_inv in H as [_ <-]. Qed.

Lemma leaves_keep l : leaves l (fn_call keep).
Proof. intros this args w v w' H. by apply Ret_inv in H as [_ <-]. Qed.

Lemma leaves_set_one l : leaves l (fn_call set_one).
Proof. intros this args w v w' H. by apply Ret_inv in H as [_ <-]. Qed.

Lemma combine_change_detection_witness :
  (∃ c w0' w',
     Index.combine [("a", keep); ("b", keep)]
       Index.pick_plain Index.join_combine_plain two_functions = Ret c w0' ∧
     fn_call c VUndefined [VNull] w0' = Ret VNull w') ∧
  (∃ c w0' w',
     ActionizeBuild.combine [("a", keep); ("b", set_one)]
       Index.pick_plain Index.join_combine_plain two_functions = Ret c w0' ∧
     fn_call c VUndefined [VNull] w0' = Ret (VRef 3) w' ∧
     get_prop (store w') (VRef 3) "a" = VNull ∧
     get_prop (store w') (VRef 3) "b" = VNum 1).
Proof.
  split.
  - eexists _, _, _. split; [reflexivity|].
    match goal with
    | |- fn_call ?c ?this ?args ?w = _ =>
        edestruct (combine_change_detection [("a", keep); ("b", keep)]
                     Index.pick_plain Index.join_combine_plain two_functions
                     c w this args w)
          as [Hsame _]; [left; reflexivity|reflexivity|]
    end.
    apply Hsame. by repeat constructor.
  - eexists _, _, _. split; [reflexivity|].
    match goal with
    | |- fn_call ?c ?this ?args ?w = _ ∧ _ =>
        edestruct (combine_change_detection [("a", keep); ("b", set_one)]
                     Index.pick_plain Index.join_combine_plain two_functions
                     c w this args w)
          as [_ Hchanged]; [right; reflexivity|reflexivity|]
    end.
    destruct Hchanged as [Hcall Hvalues].
    { apply Exists_cons_tl, Exists_cons_hd. discriminate. }
    split; [exact Hcall|].
    destruct Hvalues as [_ Hvalues].
    + by apply (bool_decide_unpack _).
    + apply leaves_pick_plain.
    + intros key r Hr. cbn [assoc_get] in Hr.
      destruct (String.eqb "a" key).
      { injection Hr as <-. apply leaves_keep. }
      destruct (String.eqb "b" key); [|discriminate Hr].
      injection Hr as <-. apply leaves_set_one.
    + split; eapply Hvalues.
      * left.
      * right. left.
Defined.

(** ** [nest] *)

(** C8.  [nest] returns a reducer [n], and with [c] the reducer that
    [combine] returns for the same children, [pick] and [join], a call
    [n(state, message)] is [c(parent(state, message), message)]: the
    parent runs first and its result is the state the children are picked
    from and joined into.  With the plain policy, a parent with initial
    state [{p: 1}] over [{c: child}] with child initial state [{c: 2}],
    called with no arguments, yields [{p: 1, c: {c: 2}}]. *)
Theorem nest_runs_parent_first
    (parent : jsfun) (reducers : list (string * jsfun))
    (pick join : behaviour) (w0 : world) :
  (∃ n w0' c w1,
     Index.nest parent reducers pick join w0 = Ret n w0' ∧
     Index.combine reducers pick join w0 = Ret c w1 ∧
     ∀ this state message w,
       fn_call n this [state; message] w =
       (parentState ← fn_call parent VUndefined [state; message];
        fn_call c VUndefined [parentState; message]) w) ∧
  match nest_scenario empty_world with
  | Ret v w =>
      snapshot 2 (store w) v
      = Some (JObject [("p", JNum 1); ("c", JObject [("c", JNum 2)])])
  | Throw _ _ => False
  end.
Proof.
  split.
  - eexists _, _, _, _. split; [reflexivity|]. split; [reflexivity|].
    reflexivity.
  - vm_compute. reflexivity.
Qed.

(** ** The properties that composed reducers expose *)

Lemma foldM_set_prop l f ks w :
  foldM (λ _ key, set_prop (VRef l) key (f key)) () ks w =
  Ret () {| store := set_all l f ks (store w); globals := globals w |}.
Proof.
  unfold set_all. revert w. induction ks as [|key ks IH]; intros w.
  - by destruct w.
  - cbn [foldM foldl]. rewrite bind_unfold, set_prop_ref. by rewrite IH.
Qed.

Lemma set_all_length l f ks h : length (set_all l f ks h) = length h.
Proof.
  unfold set_all. revert h. induction ks as [|key ks IH]; intros h; [done|].
  cbn [foldl]. by rewrite IH, heap_set_length.
Qed.

Lemma set_all_lookup_ne l f ks h l' :
  l ≠ l' → set_all l f ks h !! l' = h !! l'.
Proof.
  intros Hne. unfold set_all. revert h.
  induction ks as [|key ks IH]; intros h; [done|].
  cbn [foldl]. by rewrite IH, heap_set_lookup_ne.
Qed.

Lemma set_all_get_other l f ks h k :
  k ∉ ks → get_prop (set_all l f ks h) (VRef l) k = get_prop h (VRef l) k.
Proof.
  unfold set_all. revert h. induction ks as [|key ks IH]; intros h Hk; [done|].
  apply not_elem_of_cons in Hk as [Hne Hk]. cbn [foldl].
  rewrite IH by done. apply get_prop_heap_set_ne. right. congruence.
Qed.

Lemma set_all_get l f ks h k :
  l < length h → k ∈ ks → get_prop (set_all l f ks h) (VRef l) k = f k.
Proof.
  unfold set_all. revert h. induction ks as [|key ks IH]; intros h Hl Hk.
  - by apply elem_of_nil in Hk.
  - cbn [foldl]. destruct (decide (k ∈ ks)) as [Hin|Hnin].
    + apply IH; [by rewrite heap_set_length|done].
    + apply elem_of_cons in Hk as [->|?]; [|done].
      fold (set_all l f ks (heap_set l key (f key) h)).
      rewrite set_all_get_other by done.
      by apply get_prop_heap_set_eq.
Qed.

Lemma build_combine_eq reducers pick join w :
  ActionizeBuild.combine reducers pick join w =
  Ret {| fn_loc := length (store w);
         fn_call := ActionizeBuild.combined reducers pick join |}
      {| store :=
           set_all (length (store w)) (ActionizeBuild.child_value reducers)
             reducers.*1
             (store w ++ [{| callable := true; props := [] |}]);
         globals := globals w |}.
Proof.
  unfold ActionizeBuild.combine.
  rewrite bind_unfold, alloc_eq, bind_unfold, foldM_set_prop. reflexivity.
Qed.

(** The reducer that [ActionizeBuild.combine] returns has each child under
    its key. *)
Lemma build_combine_exposes reducers pick join w c w' key :
  ActionizeBuild.combine reducers pick join w = Ret c w' →
  key ∈ reducers.*1 →
  get_prop (store w') (VRef (fn_loc c)) key =
  ActionizeBuild.child_value reducers key.
Proof.
  rewrite build_combine_eq. intros [<- <-]%Ret_inv Hkey. simpl.
  apply set_all_get; [|done]. rewrite length_app. simpl. lia.
Qed.

Lemma set_all_ext l f g ks h :
  (∀ k, k ∈ ks → f k = g k) → set_all l f ks h = set_all l g ks h.
Proof.
  unfold set_all. revert h. induction ks as [|key ks IH]; intros h Hfg; [done|].
  cbn [foldl]. rewrite (Hfg key) by left.
  apply IH. intros k Hk. apply Hfg. by right.
Qed.

Lemma keys_heap_set h l k v :
  l < length h →
  keys (heap_set l k v h) (VRef l) =
  if bool_decide (k ∈ keys h (VRef l)) then keys h (VRef l)
  else keys h (VRef l) ++ [k].
Proof.
  intros Hl. destruct (lookup_lt_is_Some_2 h l Hl) as [o Ho].
  unfold keys, own_props, heap_set. rewrite Ho.
  rewrite list_lookup_insert_eq by done. cbn [props].
  apply assoc_set_keys.
Qed.

Lemma keys_heap_set_mono h l k v k' :
  k' ∈ keys h (VRef l) → k' ∈ keys (heap_set l k v h) (VRef l).
Proof.
  intros Hk'. destruct (decide (l < length h)) as [Hl|Hl].
  - rewrite keys_heap_set by done. case_bool_decide; [done|].
    apply elem_of_app. by left.
  - unfold heap_set. rewrite lookup_ge_None_2; [done|lia].
Qed.

Lemma keys_set_all_mono l f ks h k' :
  k' ∈ keys h (VRef l) → k' ∈ keys (set_all l f ks h) (VRef l).
Proof.
  unfold set_all. revert h. induction ks as [|key ks IH]; intros h Hk'; [done|].
  cbn [foldl]. apply IH. by apply keys_heap_set_mono.
Qed.

Lemma keys_set_all l f ks h k :
  l < length h → k ∈ ks → k ∈ keys (set_all l f ks h) (VRef l).
Proof.
  unfold set_all. revert h. induction ks as [|key ks IH]; intros h Hl Hk.
  - by apply elem_of_nil in Hk.
  - cbn [foldl]. apply elem_of_cons in Hk as [->|Hk].
    + apply (keys_set_all_mono l f ks). rewrite keys_heap_set by done.
      case_bool_decide; [done|]. apply elem_of_app. right. left.
    + apply IH; [by rewrite heap_set_length|done].
Qed.

(** Two stores that differ at most at the location [l]. *)
Lemma get_prop_agree (h h' : heap) l v k :
  (∀ l', l' ≠ l → h' !! l' = h !! l') → v ≠ VRef l →
  get_prop h' v k = get_prop h v k.
Proof.
  intros Hag Hv. unfold get_prop, own_props.
  destruct v as [| | | | |l']; try done.
  rewrite Hag; [done|congruence].
Qed.

Lemma is_function_agree (h h' : heap) l v :
  (∀ l', l' ≠ l → h' !! l' = h !! l') → v ≠ VRef l →
  is_function h' v = is_function h v.
Proof.
  intros Hag Hv. unfold is_function.
  destruct v as [| | | | |l']; try done.
  rewrite Hag; [done|congruence].
Qed.

Lemma copy_nested_eq n c key w :
  ActionizeBuild.copy_nested n (VRef c) key w =
  Ret () {| store := heap_set n key (get_prop (store w) (VRef c) key) (store w);
            globals := globals w |}.
Proof. reflexivity. Qed.

Lemma copy_action_eq n p key w :
  ActionizeBuild.copy_action n (VRef p) key w =
  let action := get_prop (store w) (VRef p) key in
  if is_function (store w) action
     && truthy (get_prop (store w) action "type")
  then Ret () {| store := heap_set n key action (store w);
                 globals := globals w |}
  else Ret () w.
Proof.
  unfold ActionizeBuild.copy_action. rewrite !bind_unfold. cbn [read].
  rewrite bind_unfold. cbn [read].
  by destruct (is_function _ _ && truthy _).
Qed.

(** The first loop of [ActionizeBuild.nest]. *)
Lemma copy_nested_loop n c ks w :
  c ≠ n →
  foldM (λ _ key, ActionizeBuild.copy_nested n (VRef c) key) () ks w =
  Ret () {| store := set_all n (get_prop (store w) (VRef c)) ks (store w);
            globals := globals w |}.
Proof.
  intros Hne. revert w. induction ks as [|key ks IH]; intros w.
  - by destruct w.
  - cbn [foldM]. rewrite bind_unfold, copy_nested_eq, IH.
    cbn [store globals].
    f_equal. f_equal. unfold set_all at 2. cbn [foldl].
    apply set_all_ext. intros k _.
    apply get_prop_heap_set_ne. left. congruence.
Qed.

(** The second loop of [ActionizeBuild.nest], over a store [h0] that the
    loop changes at the new function only. *)
Lemma copy_action_loop h0 n p ks w :
  p ≠ n →
  (∀ key, get_prop h0 (VRef p) key ≠ VRef n) →
  (∀ l, l ≠ n → store w !! l = h0 !! l) →
  foldM (λ _ key, ActionizeBuild.copy_action n (VRef p) key) () ks w =
  Ret ()
    {| store :=
         set_all n (get_prop h0 (VRef p))
           (List.filter
              (λ key, is_function h0 (get_prop h0 (VRef p) key)
                      && truthy (get_prop h0 (get_prop h0 (VRef p) key) "type"))
              ks)
           (store w);
       globals := globals w |}.
Proof.
  intros Hne Hfresh. revert w. induction ks as [|key ks IH]; intros w Hag.
  - by destruct w.
  - cbn [foldM List.filter]. rewrite bind_unfold, copy_action_eq.
    cbv zeta.
    rewrite (get_prop_agree h0 (store w) n (VRef p)) by (done || congruence).
    rewrite (is_function_agree h0 (store w) n) by done.
    rewrite (get_prop_agree h0 (store w) n (get_prop h0 (VRef p) key))
      by done.
    destruct (is_function h0 _ && truthy _).
    + rewrite IH; [done|].
      intros l Hl. cbn [store].
      rewrite heap_set_lookup_ne by congruence. by apply Hag.
    + by rewrite IH.
Qed.

Lemma assoc_get_Some_in {A} k (v : A) ps : assoc_get k ps = Some v → k ∈ ps.*1.
Proof.
  induction ps as [|[k' v'] ps IH]; [done|]. csimpl.
  destruct (String.eqb k' k) eqn:E.
  - apply String.eqb_eq in E as ->. intros _. left.
  - intros H. right. by apply IH.
Qed.

Lemma build_nest_eq parent reducers pick join w :
  let c := length (store w) in
  let n := S c in
  let p := fn_loc parent in
  let h1 := set_all c (ActionizeBuild.child_value reducers) reducers.*1
              (store w ++ [{| callable := true; props := [] |}]) in
  let h2 := h1 ++ [{| callable := true; props := [] |}] in
  let h3 := set_all n (get_prop h2 (VRef c)) (keys h2 (VRef c)) h2 in
  p ≠ n →
  (∀ key, get_prop h3 (VRef p) key ≠ VRef n) →
  ∃ nestedReducer,
  ActionizeBuild.nest parent reducers pick join w =
  Ret {| fn_loc := n; fn_call := ActionizeBuild.nested parent nestedReducer |}
      {| store :=
           set_all n (get_prop h3 (VRef p))
             (List.filter
                (λ key, is_function h3 (get_prop h3 (VRef p) key)
                        && truthy (get_prop h3 (get_prop h3 (VRef p) key) "type"))
                (keys h3 (VRef p)))
             h3;
         globals := globals w |}.
Proof.
  intros c n p h1 h2 h3 Hp Hfresh. eexists.
  unfold ActionizeBuild.nest.
  rewrite bind_unfold, build_combine_eq.
  rewrite bind_unfold, alloc_eq. cbn [store globals fn_loc].
  rewrite !set_all_length, !length_app. cbn [length].
  rewrite !Nat.add_1_r. fold c. fold n. fold h1. fold h2.
  rewrite bind_unfold. cbn [read store].
  rewrite bind_unfold, copy_nested_loop by (subst n; lia).
  cbn [store globals]. fold h3.
  rewrite bind_unfold. cbn [read store].
  rewrite bind_unfold, (copy_action_loop h3) by done.
  reflexivity.
Qed.

Lemma get_prop_app_l (h h' : heap) l k :
  l < length h → get_prop (h ++ h') (VRef l) k = get_prop h (VRef l) k.
Proof. intros Hl. apply get_prop_lookup. by apply lookup_app_l. Qed.

(** C9, for [ActionizeBuild.combine] and [ActionizeBuild.nest].  The
    reducer that [combine] returns has, under every key of the reducer
    map, the child itself.  The reducer that [nest] returns has, under the
    name of every property of the parent that is a function with a
    [type], that function, and under every other key of the reducer map
    the child itself.  The parent is an object of the store, and its
    properties refer to objects of the store. *)
Theorem build_exposes_children_and_actions
    (reducers : list (string * jsfun)) (pick join : behaviour) (w : world) :
  (∀ c w' key r,
     ActionizeBuild.combine reducers pick join w = Ret c w' →
     assoc_get key reducers = Some r →
     get_prop (store w') (VRef (fn_loc c)) key = VRef (fn_loc r)) ∧
  (∀ parent n w',
     ActionizeBuild.nest parent reducers pick join w = Ret n w' →
     fn_loc parent < length (store w) →
     (∀ key l, get_prop (store w) (VRef (fn_loc parent)) key = VRef l →
               l < length (store w)) →
     (∀ key, typed_action (store w) (VRef (fn_loc parent)) key →
        get_prop (store w') (VRef (fn_loc n)) key
        = get_prop (store w) (VRef (fn_loc parent)) key) ∧
     (∀ key r, assoc_get key reducers = Some r →
        ¬ typed_action (store w) (VRef (fn_loc parent)) key →
        get_prop (store w') (VRef (fn_loc n)) key = VRef (fn_loc r))).
Proof.
  split.
  - intros c w' key r Hc Hr.
    rewrite (build_combine_exposes _ _ _ _ _ _ _ Hc)
      by (by eapply assoc_get_Some_in).
    unfold ActionizeBuild.child_value. by rewrite Hr.
  - intros parent n w' Hn Hp Hclosed.
    pose (c := length (store w)).
    pose (h1 := set_all c (ActionizeBuild.child_value reducers) reducers.*1
                  (store w ++ [{| callable := true; props := [] |}])).
    pose (h2 := h1 ++ [{| callable := true; props := [] |}]).
    pose (h3 := set_all (S c) (get_prop h2 (VRef c)) (keys h2 (VRef c)) h2).
    assert (length h1 = S c) as Hlen1.
    { subst h1. rewrite set_all_length, length_app. simpl. lia. }
    assert (length h3 = S (S c)) as Hlen3.
    { subst h3 h2. rewrite set_all_length, length_app. simpl. lia. }
    assert (∀ l, l < c → h3 !! l = store w !! l) as Hold.
    { intros l Hl. subst h3 h2 h1.
      rewrite set_all_lookup_ne by lia.
      rewrite lookup_app_l by (rewrite set_all_length, length_app; simpl; lia).
      rewrite set_all_lookup_ne by lia.
      by rewrite lookup_app_l by lia. }
    assert (∀ v k, (∀ l, v = VRef l → l < c) →
              get_prop h3 v k = get_prop (store w) v k) as Hget.
    { intros v k Hv. unfold get_prop, own_props.
      destruct v as [| | | | |l]; try done. rewrite Hold; [done|by apply Hv]. }
    assert (∀ v, (∀ l, v = VRef l → l < c) →
              is_function h3 v = is_function (store w) v) as Hfun.
    { intros v Hv. unfold is_function.
      destruct v as [| | | | |l]; try done. rewrite Hold; [done|by apply Hv]. }
    assert (∀ key, get_prop h3 (VRef (fn_loc parent)) key
                   = get_prop (store w) (VRef (fn_loc parent)) key) as Hpar.
    { intros key. apply Hget. by intros l [= <-]. }
    assert (keys h3 (VRef (fn_loc parent))
            = keys (store w) (VRef (fn_loc parent))) as Hkeys.
    { unfold keys, own_props. by rewrite Hold. }
    destruct (build_nest_eq parent reducers pick join w) as [nr Heq].
    { fold c. lia. }
    { fold c h1 h2 h3. intros key. rewrite Hpar. intros Href.
      apply Hclosed in Href. fold c in Href. lia. }
    fold c h1 h2 h3 in Heq. rewrite Heq in Hn.
    apply Ret_inv in Hn as [<- <-]. cbn [fn_loc store].
    assert (∀ key,
      key ∈ List.filter
        (λ key, is_function h3 (get_prop h3 (VRef (fn_loc parent)) key)
                && truthy (get_prop h3
                     (get_prop h3 (VRef (fn_loc parent)) key) "type"))
        (keys h3 (VRef (fn_loc parent)))
      ↔ typed_action (store w) (VRef (fn_loc parent)) key) as Hfilter.
    { intros key. rewrite list_elem_of_In, filter_In, <- list_elem_of_In.
      rewrite Hkeys, Hpar, andb_true_iff. unfold typed_action.
      rewrite Hfun, Hget; [done| |]; intros l Hl; by eapply Hclosed. }
    split.
    + intros key Htyped. rewrite set_all_get; [apply Hpar|lia|].
      by apply Hfilter.
    + intros key r Hr Hnot.
      rewrite set_all_get_other by (by rewrite Hfilter).
      assert (key ∈ reducers.*1) as Hin by (by eapply assoc_get_Some_in).
      subst h3. rewrite set_all_get.
      * subst h2. rewrite get_prop_app_l by lia.
        subst h1. rewrite set_all_get; [|rewrite length_app; simpl; lia|done].
        unfold ActionizeBuild.child_value. by rewrite Hr.
      * subst h2. rewrite length_app. simpl. lia.
      * subst h2. unfold keys, own_props. rewrite lookup_app_l by lia.
        apply (keys_set_all c _ _ _ key); [|done].
        rewrite length_app. simpl. lia.
Qed.

Lemma tagged_parent_props key :
  get_prop (store tagged_parent) (VRef (fn_loc keep)) key =
  default VUndefined (if String.eqb "setBar" key then Some (VRef 2) else None).
Proof. reflexivity. Qed.

Lemma build_exposes_children_and_actions_witness :
  ∃ n w',
    ActionizeBuild.nest keep [("r2", set_one)]
      Index.pick_plain Index.join_nest_plain tagged_parent = Ret n w' ∧
    get_prop (store w') (VRef (fn_loc n)) "setBar" = VRef 2 ∧
    get_prop (store w') (VRef (fn_loc n)) "r2" = VRef (fn_loc set_one).
Proof.
  eexists _, _. split; [reflexivity|].
  destruct (build_exposes_children_and_actions [("r2", set_one)]
              Index.pick_plain Index.join_nest_plain tagged_parent)
    as [_ Hnest].
  destruct (Hnest keep _ _ eq_refl) as [Hactions Hchildren].
  - simpl. lia.
  - intros key l. rewrite tagged_parent_props.
    destruct (String.eqb "setBar" key); [|by intros [=]].
    intros [= <-]. simpl. lia.
  - split.
    + apply (Hactions "setBar"). split; [|done].
      unfold keys. simpl. left.
    + apply (Hchildren "r2"); [reflexivity|].
      intros [Hin _]. unfold keys in Hin. simpl in Hin.
      by apply list_elem_of_singleton in Hin.
Defined.

(** C9 does not hold of the module-level [combine]: the reducer it
    returns has no properties, and its [a] is not the child registered
    under [a]. *)
Lemma index_combine_exposes_nothing :
  ∃ c w',
    Index.combine [("a", keep); ("b", set_one)]
      Index.pick_plain Index.join_combine_plain two_functions = Ret c w' ∧
    assoc_get "a" [("a", keep); ("b", set_one)] = Some keep ∧
    get_prop (store w') (VRef (fn_loc c)) "a" = VUndefined ∧
    get_prop (store w') (VRef (fn_loc c)) "a" ≠ VRef (fn_loc keep).
Proof.
  eexists _, _. split; [reflexivity|]. split; [reflexivity|].
  split; [reflexivity|]. vm_compute. discriminate.
Qed.

(** ** Values that are not functions in an action map *)

Lemma foldM_skip {A B} (f : A → B → M A) (x : B) pre post :
  (∀ a w, f a x w = Ret a w) →
  ∀ a w, foldM f a (pre ++ x :: post) w = foldM f a (pre ++ post) w.
Proof.
  intros Hx. induction pre as [|y pre IH]; intros a w.
  - cbn [app foldM]. by rewrite bind_unfold, Hx.
  - cbn [app foldM]. rewrite !bind_unfold.
    destruct (f a y w) as [a' w'|]; [apply IH|done].
Qed.

(** C7, for [ActionizeBuild.reducer].  An entry of the action map whose
    value is not a function is ignored: building with it is building
    without it, the very same reducer in the very same world, so nothing is
    allocated, registered or exposed for it and dispatch is what it would
    be without it. *)
Theorem build_reducer_ignores_non_functions
    (b : ActionizeBuild.build) (initialState : value)
    (pre post : list (string * jsarg)) (key : string) (v : value) (w : world) :
  ActionizeBuild.reducer b initialState (pre ++ (key, Val v) :: post) w =
  ActionizeBuild.reducer b initialState (pre ++ post) w.
Proof.
  unfold ActionizeBuild.reducer. rewrite !bind_unfold.
  destruct (alloc _ w) as [l w1|]; [|done].
  rewrite !bind_unfold. by rewrite foldM_skip.
Qed.

(** C7 does not hold of the module-level [reducer]: for the
    action map [{meta: {}}] it allocates the type [|ns:meta], tags the
    object with it, exposes the object as the property [meta] and
    registers it, so that dispatching the type raises, where the reducer
    built from the empty map returns the state. *)
Lemma index_reducer_registers_non_function :
  ∃ r w' r0 w0',
    Index.reducer (VStr "ns") VNull [("meta", Val (VRef 0))] metadata_world
      = Ret r w' ∧
    Index.reducer (VStr "ns") VNull [] metadata_world = Ret r0 w0' ∧
    tick_of w' "ns:meta" = 1%N ∧ tick_of w0' "ns:meta" = 0%N ∧
    "|ns:meta" ∈ globalActionTypes (globals w') ∧
    get_prop (store w') (VRef 0) "type" = VStr "|ns:meta" ∧
    get_prop (store w') (VRef (fn_loc r)) "meta" = VRef 0 ∧
    get_prop (store w0') (VRef (fn_loc r0)) "meta" = VUndefined ∧
    keys (store w') (get_prop (store w') (VRef (fn_loc r)) "_actionizeHandlers")
      = ["|ns:meta"] ∧
    fn_call r VUndefined [VNull; VRef 1] w' = Throw TypeError w' ∧
    fn_call r0 VUndefined [VNull; VRef 1] w0' = Ret VNull w0'.
Proof.
  eexists _, _, _, _. split; [reflexivity|]. split; [reflexivity|].
  repeat split; reflexivity.
Qed.

(** ** The tags that [reducer] writes on the handlers *)

Lemma alloc_inv o w l w' :
  alloc o w = Ret l w' →
  l = length (store w) ∧
  w' = {| store := store w ++ [o]; globals := globals w |}.
Proof. by intros [<- <-]%Ret_inv. Qed.

Lemma set_prop_inv target k v w u w' :
  set_prop target k v w = Ret u w' →
  ∃ l, target = VRef l ∧
       w' = {| store := heap_set l k v (store w); globals := globals w |}.
Proof.
  destruct target as [| | | | |l]; try done.
  intros [_ <-]%Ret_inv. by exists l.
Qed.

Lemma read_inv {A} (f : heap → A) w a w' :
  read f w = Ret a w' → a = f (store w) ∧ w' = w.
Proof. by intros [<- <-]%Ret_inv. Qed.

Lemma push_inv array v w u w' :
  push array v w = Ret u w' →
  ∃ l n, array = VRef l ∧
         w' = {| store := heap_set l (pretty (N.of_nat n)) v (store w);
                 globals := globals w |}.
Proof.
  unfold push. intros H. inv_bind H.
  apply read_inv in Hstep as [-> ->].
  apply set_prop_inv in H as (l & -> & ->).
  eexists l, _. split; [done|reflexivity].
Qed.







Lemma createActionType_store namespace key w t w' :
  Index.createActionType namespace key w = Ret t w' → store w' = store w.
Proof.
  intros H.
  destruct (createActionType_Ret_inv _ _ _ _ _ H) as (ns & -> & Hns & Hkey).
  rewrite createActionType_valid in H by done.
  by apply Ret_inv in H as [_ <-].
Qed.

(** The registry under an allocation. *)
Lemma createActionType_fresh namespace key w t w' :
  consistent w →
  Index.createActionType namespace key w = Ret t w' →
  (t ∉ globalActionTypes (globals w)) ∧
  globalActionTypes (globals w') = {[t]} ∪ globalActionTypes (globals w) ∧
  consistent w'.
Proof.
  intros Hcons H.
  destruct (createActionType_Ret_inv _ _ _ _ _ H) as (ns & -> & Hns & Hkey).
  rewrite createActionType_valid in H by done.
  apply Ret_inv in H as [<- <-]. cbn [globals globalActionTypes].
  set (p := ns +:+ ":" +:+ key).
  assert ("#"%char ∉ Str.chars p) as Hp by (by apply prefix_no_hash).
  split; [|split; [done|]].
  - intros Hin. apply Hcons in Hin as (p' & n' & Heq & Hp' & Hn').
    apply type_name_inj in Heq as [Hpp Hnn]; [|done|done].
    rewrite <- Hpp, <- Hnn in Hn'. clear -Hn'. clearbody p. lia.
  - intros name Hin. unfold tick_of. cbn [globals globalActionTypeTicks].
    apply elem_of_union in Hin as [->%elem_of_singleton|Hin].
    + exists p, (tick_of w p + 1)%N. split; [done|]. split; [done|].
      by rewrite lookup_insert_eq.
    + apply Hcons in Hin as (p' & n' & -> & Hp' & Hn').
      exists p', n'. split; [done|]. split; [done|].
      clearbody p. destruct (decide (p = p')) as [<-|Hne].
      * rewrite lookup_insert_eq. simpl. unfold tick_of in Hn'. lia.
      * by rewrite lookup_insert_ne.
Qed.





(** The statements of a step before its registrations, for both builders. *)
Lemma build_step_inv b namespace rf ah tbl key a w tbl' w' :
  build_step b namespace rf ah tbl (key, a) w = Ret tbl' w' →
  ∃ types w0,
    foldM (Index.register ah a) tbl types w0 = Ret tbl' w' ∧
    if Str.starts_with "|" key then w0 = w
    else ∃ type wa c l,
      types = [type] ∧
      Index.createActionType namespace key w = Ret type wa ∧
      value_of a = VRef l ∧
      globals w0 = globals wa ∧
      match b with
      | ModuleReducer =>
          store w0
          = heap_set rf key (VRef l)
              (heap_set l "type" (VStr type) (store wa))
      | ClassReducer _ =>
          c = length (store wa) ∧
          store w0
          = heap_set rf key (VRef c)
              (heap_set l "type" (VStr type)
                 (heap_set c "type" (VStr type)
                    (store wa ++ [{| callable := true; props := [] |}])))
      end.
Proof.
  intros H.
  destruct b as [|i]; cbn [build_step] in H;
    [unfold Index.reducer_step in H|unfold ActionizeLegacy.reducer_step in H];
    apply bind_Ret_inv in H as (types & w0 & Htypes & H);
    exists types, w0; (split; [done|]);
    (destruct (Str.starts_with "|" key);
     [by apply mret_inv in Htypes as [_ <-]|]);
    apply bind_Ret_inv in Htypes as (type & wa & Hcreate & Htypes).
  - apply bind_Ret_inv in Htypes as (u1 & wb & Hset1 & Htypes).
    apply bind_Ret_inv in Htypes as (u2 & wc & Hset2 & Htypes).
    apply mret_inv in Htypes as [<- <-].
    apply set_prop_inv in Hset1 as (l & Hl & ->).
    apply set_prop_inv in Hset2 as (l2 & [= <-] & ->).
    exists type, wa, 0, l. rewrite Hl. done.
  - apply bind_Ret_inv in Htypes as (c & wb & Halloc & Htypes).
    apply bind_Ret_inv in Htypes as (u1 & wc & Hset1 & Htypes).
    apply bind_Ret_inv in Htypes as (u2 & wd & Hset2 & Htypes).
    apply bind_Ret_inv in Htypes as (u3 & we & Hset3 & Htypes).
    apply mret_inv in Htypes as [<- <-].
    apply alloc_inv in Halloc as [-> ->].
    apply set_prop_inv in Hset1 as (l1 & [= <-] & ->).
    apply set_prop_inv in Hset2 as (l & Hl & ->).
    apply set_prop_inv in Hset3 as (l3 & [= <-] & ->).
    by exists type, wa, (length (store wa)), l.
Qed.









(** ** The validation of reducers *)

















(** * Further properties *)

(** ** The registry over a sequence of requests *)

Lemma consistent_empty : consistent empty_world.
Proof. intros name Hin. by apply not_elem_of_empty in Hin. Qed.

Lemma allocate_all_issues reqs w :
  consistent w →
  NoDup (issued_types (allocate_all reqs w).1) ∧
  (∀ t, t ∈ issued_types (allocate_all reqs w).1 →
        t ∉ globalActionTypes (globals w)) ∧
  globalActionTypes (globals (allocate_all reqs w).2)
  = list_to_set (issued_types (allocate_all reqs w).1)
    ∪ globalActionTypes (globals w) ∧
  consistent (allocate_all reqs w).2.
Proof.
  revert w. induction reqs as [|[namespace key] reqs IH]; intros w Hcons.
  - cbn. split; [constructor|]. split; [intros t Ht; by apply elem_of_nil in Ht|].
    split; [set_solver|done].
  - cbn [allocate_all].
    destruct (Index.createActionType namespace key w) as [name w1|e w1] eqn:Hc.
    + destruct (createActionType_fresh _ _ _ _ _ Hcons Hc)
        as (Hfresh & Hissued & Hcons1).
      specialize (IH w1 Hcons1).
      destruct (allocate_all reqs w1) as [rs w2]. cbn [fst snd] in *.
      destruct IH as (Hnd & Hout & Hset & Hcons2).
      cbn [issued_types omap]. fold (issued_types rs).
      split; [|split; [|split; [|done]]].
      * constructor; [|done]. intros Hin. apply Hout in Hin.
        apply Hin. rewrite Hissued. set_solver.
      * intros t [->|Ht]%elem_of_cons; [done|].
        apply Hout in Ht. rewrite Hissued in Ht. set_solver.
      * rewrite Hset, Hissued. cbn [list_to_set]. set_solver.
    + apply createActionType_Throw_inv in Hc as ->.
      specialize (IH w Hcons).
      destruct (allocate_all reqs w) as [rs w2]. cbn [fst snd] in *.
      exact IH.
Qed.

(** X1.  Whatever requests the registry serves from the start, valid or not, it
    never answers two of them with the same type, and the types it has
    issued are those it has answered with. *)
Theorem createActionType_never_repeats (reqs : list (value * string)) :
  NoDup (issued_types (allocate_all reqs empty_world).1) ∧
  globalActionTypes (globals (allocate_all reqs empty_world).2)
  = list_to_set (issued_types (allocate_all reqs empty_world).1).
Proof.
  destruct (allocate_all_issues reqs empty_world consistent_empty)
    as (Hnd & _ & Hset & _).
  split; [done|]. rewrite Hset. cbn. set_solver.
Qed.

(** ** The action types of [buildActionType] *)

Lemma validateName_Ret name w u w' :
  Actionize.validateName name w = Ret u w' →
  ∃ n, name = VStr n ∧ valid_namespace n ∧ w' = w.
Proof.
  destruct name as [| | | |n|]; try done. cbn.
  destruct (Str.has_char Index.namespace_reserved n) eqn:Hn; [done|].
  intros [_ <-]%Ret_inv. exists n. by apply valid_namespace_spec in Hn.
Qed.

Lemma validateActionKey_Ret key w u w' :
  Actionize.validateActionKey key w = Ret u w' →
  ∃ k, key = VStr k ∧ Str.has_char Index.key_reserved k = false ∧ w' = w.
Proof.
  destruct key as [| | | |k|]; try done. cbn.
  destruct (Str.has_char Index.key_reserved k) eqn:Hk; [done|].
  intros [_ <-]%Ret_inv. by exists k.
Qed.

Lemma buildActionType_Ret namespace key w t w' :
  Actionize.buildActionType namespace key w = Ret t w' →
  ∃ k, key = VStr k ∧ Str.has_char Index.key_reserved k = false ∧
       t = build_type namespace k ∧ w' = w.
Proof.
  unfold Actionize.buildActionType. intros H.
  apply bind_Ret_inv in H as (u & w1 & Hk & H).
  apply validateActionKey_Ret in Hk as (k & -> & Hk & ->).
  apply mret_inv in H as [<- <-]. by exists k.
Qed.

Lemma build_type_shape n k :
  valid_namespace n → Str.has_char Index.key_reserved k = false →
  action_type_shape (build_type (VStr n) k).
Proof.
  intros Hn Hk. unfold build_type. cbn [to_string].
  rewrite str_app_cons, str_app_nil_l.
  eexists. split; [done|]. split.
  - destruct n; [|done]. by rewrite str_app_nil_l.
  - rewrite !str_chars_app, !elem_of_app. cbn [Str.chars].
    intros [Hc|[Hc|Hc]].
    + by destruct (Hn _ Hc) as (_ & _ & ?).
    + by apply list_elem_of_singleton in Hc.
    + rewrite str_has_char_false in Hk. by specialize (Hk _ Hc).
Qed.

(** X2.  The types that [buildActionType] makes from names that [validateName]
    accepts tell the name and the key: two calls that return the same type
    were given the same name and the same key.  The type has the shape of
    an action type, and the call changes nothing. *)
Theorem buildActionType_injective
    (name1 name2 key1 key2 : value) (w w1 w2 : world) (t : string) :
  Actionize.validateName name1 w = Ret () w →
  Actionize.validateName name2 w = Ret () w →
  Actionize.buildActionType name1 key1 w = Ret t w1 →
  Actionize.buildActionType name2 key2 w = Ret t w2 →
  name1 = name2 ∧ key1 = key2 ∧ action_type_shape t ∧ w1 = w ∧ w2 = w.
Proof.
  intros (n1 & -> & Hn1 & _)%validateName_Ret
         (n2 & -> & Hn2 & _)%validateName_Ret
         (k1 & -> & Hk1 & Ht1 & ->)%buildActionType_Ret
         (k2 & -> & Hk2 & Ht2 & ->)%buildActionType_Ret.
  rewrite Ht1 in Ht2. unfold build_type in Ht2. cbn [to_string] in Ht2.
  rewrite !str_app_cons, !str_app_nil_l in Ht2.
  injection Ht2 as Ht2. apply prefix_inj in Ht2 as [-> ->]; [|done|done].
  split; [done|]. split; [done|]. split; [|done].
  rewrite Ht1. by apply build_type_shape.
Qed.

Lemma buildActionType_injective_witness :
  Actionize.buildActionType (VStr "todos") (VStr "add") empty_world
  = Ret "|todos:add" empty_world ∧
  action_type_shape "|todos:add".
Proof.
  assert (Actionize.buildActionType (VStr "todos") (VStr "add") empty_world
          = Ret "|todos:add" empty_world) as H by reflexivity.
  split; [exact H|].
  destruct (buildActionType_injective (VStr "todos") (VStr "todos")
              (VStr "add") (VStr "add") empty_world empty_world empty_world
              "|todos:add" eq_refl eq_refl H H) as (_ & _ & Hshape & _).
  exact Hshape.
Defined.

(** ** The reducers of [ActionizeBuild.reducer] *)

(** One round of the loop, for a function. *)
Lemma build_reducer_step_fun b rf t key f w :
  ActionizeBuild.reducer_step b rf t (key, Fun f) w =
  if Str.is_empty key then Ret t w
  else
    let c := length (store w) in
    let w1 := {| store := store w ++ [{| callable := true; props := [] |}];
                 globals := globals w |} in
    let actionCall :=
      {| fn_loc := c; fn_call := ActionizeBuild.actionCall b f rf |} in
    if Str.starts_with "|" key then
      Ret (foldl (λ t name, table_push name (Fun actionCall) t) t
             (composite_types key)) w1
    else if Str.has_char Index.key_reserved key then Throw KeyReserved w1
    else
      Ret (table_push (build_type (ActionizeBuild._name b) key)
             (Fun actionCall) t)
        {| store :=
             heap_set rf key (VRef c)
               (heap_set c "type"
                  (VStr (build_type (ActionizeBuild._name b) key))
                  (store w1));
           globals := globals w |}.
Proof.
  unfold ActionizeBuild.reducer_step.
  destruct (Str.is_empty key); [done|].
  rewrite bind_unfold, alloc_eq. cbv zeta.
  destruct (Str.starts_with "|" key); [done|].
  rewrite !bind_unfold. unfold Actionize.buildActionType.
  rewrite !bind_unfold. cbn [Actionize.validateActionKey].
  destruct (Str.has_char Index.key_reserved key); [done|].
  reflexivity.
Qed.

Lemma build_reducer_step_val b rf t key v w :
  ActionizeBuild.reducer_step b rf t (key, Val v) w = Ret t w.
Proof. reflexivity. Qed.

Lemma build_loop_frame b rf n entries t w :
  n ≤ rf → n ≤ length (store w) →
  let w' := world_of (foldM (ActionizeBuild.reducer_step b rf) t entries w) in
  globals w' = globals w ∧
  length (store w) ≤ length (store w') ∧
  ∀ l, l < n → store w' !! l = store w !! l.
Proof.
  intros Hrf. revert t w.
  induction entries as [|[key a] entries IH]; intros t w Hn; cbv zeta.
  - done.
  - cbn [foldM]. rewrite bind_unfold.
    destruct a as [f|v].
    + rewrite build_reducer_step_fun.
      destruct (Str.is_empty key); [by apply IH|]. cbv zeta.
      destruct (Str.starts_with "|" key).
      { match goal with
        | |- context [foldM _ ?t' entries ?w'] =>
            destruct (IH t' w') as (Hg & Hlen & Hl)
        end.
        - cbn [store]. rewrite length_app. lia.
        - cbn [store globals] in *. rewrite length_app in Hlen.
          split; [done|]. split; [lia|].
          intros l Hlt. rewrite Hl by done. apply lookup_app_l. lia. }
      destruct (Str.has_char Index.key_reserved key).
      { cbn [world_of store globals]. rewrite length_app.
        split; [done|]. split; [lia|].
        intros l Hlt. apply lookup_app_l. lia. }
      match goal with
      | |- context [foldM _ ?t' entries ?w'] =>
          destruct (IH t' w') as (Hg & Hlen & Hl)
      end.
      * cbn [store]. rewrite !heap_set_length, length_app. lia.
      * cbn [store globals] in *.
        rewrite !heap_set_length, length_app in Hlen.
        split; [done|]. split; [lia|].
        intros l Hlt. rewrite Hl by done.
        rewrite !heap_set_lookup_ne by lia. apply lookup_app_l. lia.
    + rewrite build_reducer_step_val. by apply IH.
Qed.

(** X3.  [ActionizeBuild.reducer] writes on nothing that exists: whether the
    build returns or throws, every object of the store it was called in is
    as it was, the handlers of the action map among them, which get no
    [type], and the registry of the module level is as it was. *)
Theorem build_reducer_leaves_handlers
    (b : ActionizeBuild.build) (initialState : value)
    (actions : list (string * jsarg)) (w : world) :
  let w' := world_of (ActionizeBuild.reducer b initialState actions w) in
  globals w' = globals w ∧
  ∀ l, l < length (store w) → store w' !! l = store w !! l.
Proof.
  cbv zeta. unfold ActionizeBuild.reducer.
  rewrite bind_unfold, alloc_eq, bind_unfold.
  pose proof (build_loop_frame b (length (store w)) (length (store w)) actions
                []
                {| store := store w ++ [{| callable := true; props := [] |}];
                   globals := globals w |}) as H.
  cbv zeta in H. cbn [store globals] in H. rewrite length_app in H.
  destruct H as (Hg & _ & Hl); [lia|lia|].
  destruct (foldM _ _ _ _) as [t w1|e w1]; cbn [world_of] in *.
  - split; [done|]. intros l Hlt. rewrite Hl by done.
    apply lookup_app_l. lia.
  - split; [done|]. intros l Hlt. rewrite Hl by done.
    apply lookup_app_l. lia.
Qed.

Lemma heap_set_lookup_eq (h : heap) l k v o :
  h !! l = Some o →
  heap_set l k v h !! l
  = Some {| callable := callable o; props := assoc_set k v (props o) |}.
Proof.
  intros Ho. unfold heap_set. rewrite Ho.
  apply list_lookup_insert_eq. by eapply lookup_lt_Some.
Qed.

Lemma keys_lookup (h h' : heap) l :
  h' !! l = h !! l → keys h' (VRef l) = keys h (VRef l).
Proof. intros H. unfold keys, own_props. by rewrite H. Qed.

Lemma is_function_lookup (h h' : heap) l :
  h' !! l = h !! l → is_function h' (VRef l) = is_function h (VRef l).
Proof. intros H. unfold is_function. by rewrite H. Qed.

















(** ** The dispatch tables of the builders that tag the handlers *)

Lemma register_table ah a t name w t' w' :
  Index.register ah a t name w = Ret t' w' → t' = table_push name a t.
Proof.
  unfold Index.register. intros H. inv_bind H.
  by apply mret_inv in H as [<- _].
Qed.



Lemma build_step_composite b namespace rf ah t key a w :
  Str.starts_with "|" key = true →
  build_step b namespace rf ah t (key, a) w
  = foldM (Index.register ah a) t (composite_types key) w.
Proof.
  intros Hc.
  destruct b; cbn [build_step];
    [unfold Index.reducer_step|unfold ActionizeLegacy.reducer_step];
    by rewrite Hc.
Qed.


Lemma tagging_reducer_closure b namespace initialState actions w r w' :
  build_reducer b namespace initialState actions w = Ret r w' →
  ∃ t wf,
    foldM (build_step b namespace (S (length (store w))) (length (store w)))
      [] actions (reducer_start w) = Ret t wf ∧
    r = {| fn_loc := S (length (store w));
           fn_call := tagging_reducerFunc b initialState t |} ∧
    globals w' = globals wf ∧
    store w'
    = heap_set (S (length (store w))) "_actionizeHandlers"
        (VRef (length (store w)))
        (heap_set (S (length (store w))) "_actionizeNamespace" namespace
           (store wf)).
Proof.
  intros H.
  destruct b as [|i]; cbn [build_reducer] in H;
    [unfold Index.reducer in H|unfold ActionizeLegacy.reducer in H];
    apply bind_Ret_inv in H as (ah & wa & Hah & H);
    apply alloc_inv in Hah as [-> ->];
    apply bind_Ret_inv in H as (rf & wb & Hrf & H);
    apply alloc_inv in Hrf as [-> ->];
    cbn [store globals] in H; rewrite length_app in H; cbn [length] in H;
    rewrite Nat.add_1_r in H; fold (reducer_start w) in H;
    apply bind_Ret_inv in H as (t & wf & Hfold & H);
    apply bind_Ret_inv in H as (u1 & wc & Hset1 & H);
    apply bind_Ret_inv in H as (u2 & wd & Hset2 & H);
    apply mret_inv in H as [<- <-];
    apply set_prop_inv in Hset1 as (l1 & [= <-] & ->);
    apply set_prop_inv in Hset2 as (l2 & [= <-] & ->);
    by exists t, wf.
Qed.



(** ** The table object of a reducer and [handle] *)

Lemma split_no_sep sep s x : x ∈ Str.split sep s → sep ∉ Str.chars x.
Proof.
  revert x. induction s as [|c s IH]; intros x; cbn [Str.split].
  - intros ->%list_elem_of_singleton. apply not_elem_of_nil.
  - destruct (Ascii.eqb_spec c sep) as [->|Hc].
    + intros [->|Hx]%elem_of_cons; [apply not_elem_of_nil|by apply IH].
    + destruct (Str.split sep s) as [|y ys] eqn:E.
      * intros ->%list_elem_of_singleton. cbn.
        intros [?|?%elem_of_nil]%elem_of_cons; [congruence|done].
      * intros [->|Hx]%elem_of_cons.
        -- cbn. intros [?|Hy]%elem_of_cons; [congruence|].
           revert Hy. apply IH. left.
        -- apply IH. by right.
Qed.

Lemma composite_types_shape key :
  Forall action_type_shape (composite_types key).
Proof.
  unfold composite_types. apply Forall_forall. intros t Ht.
  apply list_elem_of_In, in_map_iff in Ht as (k & <- & Hk).
  apply filter_In in Hk as [Hk Hne]. apply list_elem_of_In in Hk.
  exists k. split; [done|]. split.
  - intros ->. done.
  - by eapply split_no_sep.
Qed.

Lemma assoc_get_None {A} k (ps : list (string * A)) :
  k ∉ ps.*1 → assoc_get k ps = None.
Proof.
  induction ps as [|[k' v'] ps IH]; [done|]. csimpl. intros Hk.
  destruct (String.eqb_spec k' k) as [->|Hne].
  - exfalso. apply Hk. left.
  - apply IH. intros Hin. apply Hk. by right.
Qed.

Lemma assoc_get_in {A} k (ps : list (string * A)) :
  k ∈ ps.*1 → ∃ v, assoc_get k ps = Some v ∧ v ∈ ps.*2.
Proof.
  induction ps as [|[k' v'] ps IH]; csimpl.
  - by intros ?%elem_of_nil.
  - intros Hk. destruct (String.eqb_spec k' k) as [->|Hne].
    + exists v'. split; [done|left].
    + apply elem_of_cons in Hk as [?|Hk]; [congruence|].
      destruct (IH Hk) as (v & Hv & Hin). exists v. split; [done|by right].
Qed.

Lemma assoc_set_absent {A} k (v : A) ps :
  k ∉ ps.*1 → assoc_set k v ps = ps ++ [(k, v)].
Proof.
  induction ps as [|[k' v'] ps IH]; [done|]. csimpl. intros Hk.
  destruct (String.eqb_spec k' k) as [->|Hne].
  - exfalso. apply Hk. left.
  - rewrite IH; [done|]. intros Hin. apply Hk. by right.
Qed.

Lemma table_push_keys name handler (t : table) :
  (table_push name handler t).*1
  = if bool_decide (name ∈ t.*1) then t.*1 else t.*1 ++ [name].
Proof. unfold table_push. apply assoc_set_keys. Qed.

Lemma register_mirrors ah rf E a t name w t' w' :
  action_type_shape name →
  mirrors ah rf E t w →
  Index.register ah a t name w = Ret t' w' →
  mirrors ah rf E t' w'.
Proof.
  intros Hshape (Hrf & Hah & Hexp & o & Ho & Hkeys & Hshapes & Hvals) H.
  pose proof (register_table _ _ _ _ _ _ _ H) as ->.
  unfold Index.register in H.
  apply bind_Ret_inv in H as (found & w0 & Hfound & H).
  apply read_inv in Hfound as [-> ->].
  apply bind_Ret_inv in H as (list & w1 & Hlist & H).
  apply bind_Ret_inv in H as (u & w2 & Hpush & H).
  apply mret_inv in H as [_ <-].
  apply push_inv in Hpush as (la & n & -> & ->).
  unfold get_prop, own_props in Hlist. rewrite Ho in Hlist.
  destruct (decide (name ∈ t.*1)) as [Hin|Hnotin].
  - (* the type has its list *)
    rewrite <- Hkeys in Hin.
    destruct (assoc_get_in _ _ Hin) as (v & Hv & Hvin).
    rewrite Hv in Hlist. cbn [default from_option id] in Hlist.
    pose proof (proj1 (Forall_forall _ _) Hvals v Hvin) as (l & -> & Hl).
    cbn [truthy] in Hlist. apply mret_inv in Hlist as [[= <-] <-].
    split; [by cbn [store]; rewrite heap_set_length|]. split; [done|].
    split.
    { intros k. cbn [store].
      rewrite (keys_lookup (store w))
        by (apply heap_set_lookup_ne; lia). apply Hexp. }
    exists o. cbn [store].
    split; [rewrite heap_set_lookup_ne by lia; done|].
    rewrite table_push_keys, bool_decide_eq_true_2 by (by rewrite <- Hkeys).
    split; [done|]. split; [done|].
    rewrite heap_set_length. done.
  - (* the type is new to the table *)
    rewrite assoc_get_None in Hlist by (by rewrite Hkeys).
    cbn [default from_option id truthy] in Hlist.
    apply bind_Ret_inv in Hlist as (l & wa & Halloc & Hlist).
    apply bind_Ret_inv in Hlist as (u1 & wb & Hset & Hlist).
    apply mret_inv in Hlist as [[= <-] <-].
    apply alloc_inv in Halloc as [-> ->].
    apply set_prop_inv in Hset as (l' & [= <-] & ->).
    unfold mirrors. cbn [store].
    set (h1 := heap_set ah name (VRef (length (store w)))
                 (store w ++ [{| callable := false; props := [] |}])).
    assert (length h1 = S (length (store w))) as Hlen1.
    { unfold h1. rewrite heap_set_length, length_app. simpl. lia. }
    split; [rewrite heap_set_length; lia|]. split; [done|].
    split.
    { intros k.
      rewrite (keys_lookup (store w)).
      - apply Hexp.
      - rewrite heap_set_lookup_ne by lia. unfold h1.
        rewrite heap_set_lookup_ne by lia. apply lookup_app_l. lia. }
    eexists. split.
    { rewrite heap_set_lookup_ne by lia. unfold h1.
      apply heap_set_lookup_eq. rewrite lookup_app_l by lia. done. }
    cbn [props].
    rewrite assoc_set_absent by (by rewrite Hkeys).
    rewrite !fmap_app. cbn [fmap list_fmap fst snd].
    rewrite table_push_keys, bool_decide_eq_false_2 by done.
    split; [by rewrite Hkeys|]. split.
    { apply Forall_app. split; [done|]. by constructor. }
    rewrite heap_set_length, Hlen1. apply Forall_app. split.
    + eapply Forall_impl; [exact Hvals|].
      intros v (l & -> & Hl). exists l. split; [done|lia].
    + constructor; [|done]. eexists. split; [done|]. lia.
Qed.

Lemma register_loop_mirrors ah rf E a names t w t' w' :
  Forall action_type_shape names →
  mirrors ah rf E t w →
  foldM (Index.register ah a) t names w = Ret t' w' →
  mirrors ah rf E t' w'.
Proof.
  intros Hnames. revert t w.
  induction Hnames as [|name names Hname Hnames IH]; intros t w Hm H.
  - by apply mret_inv in H as [<- <-].
  - cbn [foldM] in H. apply bind_Ret_inv in H as (t1 & w1 & Hreg & H).
    eapply IH; [|exact H]. by eapply register_mirrors.
Qed.

Lemma keys_heap_set_in h l k v k' :
  k' ∈ keys (heap_set l k v h) (VRef l) → k' ∈ keys h (VRef l) ∨ k' = k.
Proof.
  destruct (decide (l < length h)) as [Hl|Hl].
  - rewrite keys_heap_set by done. case_bool_decide; [by left|].
    intros [?|?%list_elem_of_singleton]%elem_of_app; auto.
  - unfold heap_set. rewrite lookup_ge_None_2 by lia. by left.
Qed.

Lemma build_step_mirrors b namespace ah rf E t key a w t' w' :
  (∀ l, value_of a = VRef l → l < ah) →
  (Str.starts_with "|" key = false → key ∈ E) →
  mirrors ah rf E t w →
  build_step b namespace rf ah t (key, a) w = Ret t' w' →
  mirrors ah rf E t' w'.
Proof.
  intros Ha Hkey Hm H.
  destruct (Str.starts_with "|" key) eqn:Hc.
  { rewrite build_step_composite in H by done.
    eapply register_loop_mirrors; [apply composite_types_shape|done|done]. }
  apply build_step_inv in H as (types & w0 & Hloop & Hpre).
  rewrite Hc in Hpre.
  destruct Hpre as (type & wa & c & l & -> & Hcreate & Hl & Hg0 & Hstore).
  eapply register_loop_mirrors; [|
    |exact Hloop].
  { constructor; [|done]. by eapply createActionType_shape. }
  pose proof (createActionType_store _ _ _ _ _ Hcreate) as Hwa.
  apply Ha in Hl.
  destruct Hm as (Hrf & Hah & Hexp & o & Ho & Hkeys & Hshapes & Hvals).
  assert (length (store w) ≤ length (store w0) ∧
          (∀ k, k ∈ keys (store w0) (VRef rf) →
                k ∈ keys (store w) (VRef rf) ∨ k = key) ∧
          store w0 !! ah = store w !! ah) as (Hlen & Hk & Hsame).
  { destruct b; [|destruct Hstore as [-> Hstore]]; rewrite Hstore, Hwa.
    - rewrite !heap_set_length. split; [done|]. split.
      + intros k [Hin| ->]%keys_heap_set_in; [left|by right].
        by rewrite (keys_lookup (store w)) in Hin
          by (apply heap_set_lookup_ne; lia).
      + by rewrite !heap_set_lookup_ne by lia.
    - rewrite !heap_set_length, length_app. split; [lia|]. split.
      + intros k [Hin| ->]%keys_heap_set_in; [left|by right].
        rewrite (keys_lookup (store w)) in Hin; [done|].
        rewrite !heap_set_lookup_ne by lia. apply lookup_app_l. lia.
      + rewrite !heap_set_lookup_ne by lia. apply lookup_app_l. lia. }
  split; [lia|]. split; [done|]. split.
  - intros k [Hin| ->]%Hk; [by apply Hexp|by apply Hkey].
  - exists o. split; [by rewrite Hsame|]. split; [done|]. split; [done|].
    eapply Forall_impl; [exact Hvals|].
    intros v (l' & -> & Hl'). exists l'. split; [done|lia].
Qed.

Lemma build_loop_mirrors b namespace ah rf E entries t w t' w' :
  (∀ key a l, (key, a) ∈ entries → value_of a = VRef l → l < ah) →
  (∀ key a, (key, a) ∈ entries → Str.starts_with "|" key = false →
            key ∈ E) →
  mirrors ah rf E t w →
  foldM (build_step b namespace rf ah) t entries w = Ret t' w' →
  mirrors ah rf E t' w'.
Proof.
  revert t w. induction entries as [|[key a] entries IH];
    intros t w Ha HE Hm H.
  - by apply mret_inv in H as [<- <-].
  - cbn [foldM] in H. apply bind_Ret_inv in H as (t1 & w1 & Hstep & H).
    eapply IH; [| | |exact H].
    + intros key' a' l Hin. apply (Ha key' a'). by right.
    + intros key' a' Hin. apply (HE key' a'). by right.
    + eapply build_step_mirrors; [| |exact Hm|exact Hstep].
      * intros l. apply (Ha key a). left.
      * apply (HE key a). left.
Qed.

(** X8.  The table object that a built reducer exposes as [_actionizeHandlers]
    mirrors its dispatch table: its keys are the types of the table, in
    the order in which they were first registered, all of the shape of an
    action type.  So, for a reducer without an action named [type], what
    [handle] returns for it is the concatenation of these types, and the
    split of composite keys gives them back: a handler under the key
    [handle(r)] is registered for every type of [r].  The handlers of the
    action map are objects of the store the build was called in. *)
Theorem tagging_reducer_handle
    (b : tagging_builder) (namespace initialState : value)
    (actions : list (string * jsarg)) (w : world) (r : jsfun) (w' : world) :
  (∀ key a l, (key, a) ∈ actions → value_of a = VRef l →
              l < length (store w)) →
  (∀ a, ("type", a) ∉ actions) →
  build_reducer b namespace initialState actions w = Ret r w' →
  ∃ t,
    fn_call r = tagging_reducerFunc b initialState t ∧
    keys (store w')
      (get_prop (store w') (VRef (fn_loc r)) "_actionizeHandlers") = t.*1 ∧
    Forall action_type_shape t.*1 ∧
    Index.handle (store w') [VRef (fn_loc r)] = Str.concat t.*1 ∧
    composite_types (Index.handle (store w') [VRef (fn_loc r)]) = t.*1.
Proof.
  intros Ha Htype H.
  apply tagging_reducer_closure in H as (t & wf & Hfold & -> & _ & Hstore).
  exists t. cbn [fn_loc fn_call]. split; [done|].
  set (ah := length (store w)) in *.
  pose (E := (filter (λ e : string * jsarg,
                        Str.starts_with "|" e.1 = false) actions).*1).
  assert (mirrors ah (S ah) E [] (reducer_start w)) as Hm0.
  { unfold mirrors, reducer_start. cbn [store].
    rewrite !length_app. cbn [length]. fold ah.
    split; [lia|]. split; [lia|]. split.
    - intros k. unfold keys, own_props.
      rewrite lookup_app_r by (rewrite length_app; simpl; lia).
      rewrite length_app. simpl. fold ah.
      replace (S ah - (ah + 1)) with 0 by lia. cbn.
      by intros ?%elem_of_nil.
    - exists {| callable := false; props := [] |}. split.
      + rewrite lookup_app_l by (rewrite length_app; simpl; lia).
        rewrite lookup_app_r by lia. fold ah. by rewrite Nat.sub_diag.
      + done. }
  assert (mirrors ah (S ah) E t wf) as Hm.
  { eapply build_loop_mirrors; [exact Ha| |exact Hm0|exact Hfold].
    intros key a Hin Hc. unfold E. apply list_elem_of_fmap.
    exists (key, a). split; [done|]. by apply list_elem_of_filter. }
  destruct Hm as (Hrf & _ & Hexp & o & Ho & Hkeys & Hshapes & Hvals).
  assert (get_prop (store w') (VRef (S ah)) "_actionizeHandlers" = VRef ah)
    as Hhandlers.
  { rewrite Hstore. apply get_prop_heap_set_eq. by rewrite heap_set_length. }
  assert (keys (store w') (VRef ah) = t.*1) as Hmirror.
  { rewrite Hstore, (keys_lookup (store wf))
      by (by rewrite !heap_set_lookup_ne by lia).
    unfold keys, own_props. by rewrite Ho. }
  assert (get_prop (store w') (VRef (S ah)) "type" = VUndefined) as Hnotype.
  { rewrite Hstore, !get_prop_heap_set_ne by (by right).
    unfold get_prop. rewrite assoc_get_None; [done|].
    intros Hin. apply Hexp in Hin. unfold E in Hin.
    apply list_elem_of_fmap in Hin as ([k a] & Hk & Hin). cbn in Hk. subst k.
    apply list_elem_of_filter in Hin as [_ Hin]. by apply Htype in Hin. }
  rewrite Hhandlers. split; [done|]. split; [done|].
  assert (Index.handle (store w') [VRef (S ah)] = Str.concat t.*1) as Hh.
  { rewrite handle_concat. cbn [flat_map resolved_types truthy].
    rewrite Hnotype, Hhandlers. cbn [truthy]. by rewrite app_nil_r, Hmirror. }
  split; [done|]. rewrite Hh. by apply composite_types_concat.
Qed.

Lemma tagging_reducer_handle_witness :
  ∃ r w',
    Index.reducer (VStr "ns") VNull
      [("a", Fun keep); ("|x:y|ns:a", Fun set_one)] two_functions
    = Ret r w' ∧
    composite_types (Index.handle (store w') [VRef (fn_loc r)])
    = ["|ns:a"; "|x:y"].
Proof.
  destruct (Index.reducer (VStr "ns") VNull
      [("a", Fun keep); ("|x:y|ns:a", Fun set_one)] two_functions)
    as [r w'|] eqn:Hr; [|vm_compute in Hr; discriminate Hr].
  exists r, w'. split; [reflexivity|].
  destruct (tagging_reducer_handle ModuleReducer (VStr "ns") VNull
              [("a", Fun keep); ("|x:y|ns:a", Fun set_one)]
              two_functions r w') as (t & _ & Hkeys & _ & _ & Hsplit).
  - intros key a l Hin Hl.
    repeat (apply elem_of_cons in Hin as [Heq|Hin];
            [injection Heq as -> ->; vm_compute in Hl; injection Hl as <-;
             simpl; lia|]).
    by apply elem_of_nil in Hin.
  - intros a Hin.
    repeat (apply elem_of_cons in Hin as [Heq|Hin]; [discriminate Heq|]).
    by apply elem_of_nil in Hin.
  - exact Hr.
  - rewrite Hsplit, <- Hkeys.
    vm_compute in Hr. apply Ret_inv in Hr as [<- <-]. reflexivity.
Defined.

(** ** [ActionizeBuild.handle] and the validation, on built reducers *)
















(** ** Messages that the other reducers do not handle *)

Lemma build_reducer_closure b initialState actions w r w' :
  ActionizeBuild.reducer b initialState actions w = Ret r w' →
  ∃ t, fn_call r = ActionizeBuild.reducerFunc initialState t.
Proof.
  unfold ActionizeBuild.reducer. intros H.
  apply bind_Ret_inv in H as (rf & w1 & _ & H).
  apply bind_Ret_inv in H as (t & wf & _ & H).
  apply mret_inv in H as [<- _]. by exists t.
Qed.

(** X11.  A reducer of [ActionizeBuild.reducer] or of the method [reducer]
    of the earlier class, called without a message or with a message
    without a type, runs no handler and changes nothing: it returns the
    state it was given, and the initial state when it was given none. *)
Theorem other_reducers_unhandled
    (b : ActionizeBuild.build) (i : ActionizeLegacy.instance)
    (namespace initialState : value) (actions : list (string * jsarg))
    (w : world) (r : jsfun) (w' : world) :
  ActionizeBuild.reducer b initialState actions w = Ret r w' ∨
  ActionizeLegacy.reducer i namespace initialState actions w = Ret r w' →
  ∀ this args w2,
    truthy (arg 1 args) = false ∨
    truthy (get_prop (store w2) (arg 1 args) "type") = false →
    fn_call r this args w2
    = Ret (default_param (arg 0 args) initialState) w2.
Proof.
  intros H this args w2 Hmsg.
  assert (∃ t, fn_call r = ActionizeBuild.reducerFunc initialState t ∨
               fn_call r = ActionizeLegacy.reducerFunc i initialState t)
    as (t & Hcall).
  { destruct H as [H|H].
    - apply build_reducer_closure in H as (t & H). exists t. by left.
    - apply (tagging_reducer_closure (ClassReducer i)) in H
        as (t & wf & _ & -> & _). exists t. by right. }
  destruct Hcall as [-> | ->];
    [unfold ActionizeBuild.reducerFunc|unfold ActionizeLegacy.reducerFunc];
    rewrite bind_unfold; cbn [read]; unfold js_and;
    (destruct (truthy (arg 1 args)) eqn:Ha;
     [destruct Hmsg as [?|Hmsg]; [done|]; by rewrite Hmsg
     |by rewrite Ha]).
Qed.

Lemma other_reducers_unhandled_witness :
  ∃ r w',
    ActionizeLegacy.reducer {| ActionizeLegacy.context := None |}
      (VStr "ns") (VNum 7) [("a", Fun set_one)] two_functions = Ret r w' ∧
    fn_call r VUndefined [] w' = Ret (VNum 7) w'.
Proof.
  destruct (ActionizeLegacy.reducer {| ActionizeLegacy.context := None |}
      (VStr "ns") (VNum 7) [("a", Fun set_one)] two_functions)
    as [r w'|] eqn:Hr; [|vm_compute in Hr; discriminate Hr].
  exists r, w'. split; [reflexivity|].
  apply (other_reducers_unhandled
           {| ActionizeBuild._name := VNull; ActionizeBuild.context := None |}
           _ _ _ _ _ _ _ (or_intror Hr)).
  by left.
Defined.

(** ** [ActionizeBuild.nest] *)



(** ** The plain policy of [nest] *)

Lemma assign_from_eq target source w :
  Index.assign_from (VRef target) source w
  = Ret () {| store := assign_all target (own_props (store w) source) (store w);
              globals := globals w |}.
Proof.
  unfold Index.assign_from. rewrite bind_unfold. cbn [read].
  generalize (own_props (store w) source). intros ps.
  destruct w as [h g]. cbn [store globals]. revert h.
  induction ps as [|p ps IH]; intros h; [done|].
  cbn [foldM]. rewrite bind_unfold. cbn. apply IH.
Qed.

Lemma assign_all_cons target p ps h :
  assign_all target (p :: ps) h
  = assign_all target ps (heap_set target p.1 p.2 h).
Proof. reflexivity. Qed.

Lemma assign_all_length target ps h :
  length (assign_all target ps h) = length h.
Proof.
  unfold assign_all. revert h. induction ps as [|p ps IH]; intros h; [done|].
  cbn [foldl]. by rewrite IH, heap_set_length.
Qed.

Lemma assign_all_lookup_ne target ps h l :
  target ≠ l → assign_all target ps h !! l = h !! l.
Proof.
  intros Hne. unfold assign_all. revert h.
  induction ps as [|p ps IH]; intros h; [done|].
  cbn [foldl]. by rewrite IH, heap_set_lookup_ne.
Qed.

Lemma assign_all_get target ps h k :
  NoDup ps.*1 → target < length h →
  get_prop (assign_all target ps h) (VRef target) k
  = default (get_prop h (VRef target) k) (assoc_get k ps).
Proof.
  revert h. induction ps as [|[k' v] ps IH]; intros h Hnd Hlt; [done|].
  csimpl in Hnd. apply NoDup_cons in Hnd as [Hk Hnd].
  rewrite assign_all_cons. cbn [fst snd].
  rewrite IH by (done || by rewrite heap_set_length). csimpl.
  destruct (String.eqb_spec k' k) as [->|Hne].
  - rewrite assoc_get_None by done. cbn. by apply get_prop_heap_set_eq.
  - f_equal. apply get_prop_heap_set_ne. by right.
Qed.

Lemma assign_all_keys target ps h :
  target < length h →
  ∀ k, k ∈ keys (assign_all target ps h) (VRef target)
       ↔ k ∈ keys h (VRef target) ∨ k ∈ ps.*1.
Proof.
  revert h. induction ps as [|[k' v] ps IH]; intros h Hlt k.
  - cbn. rewrite elem_of_nil. tauto.
  - rewrite assign_all_cons. cbn [fst snd].
    rewrite IH by (by rewrite heap_set_length). csimpl.
    rewrite keys_heap_set by done. rewrite elem_of_cons.
    case_bool_decide as Hin.
    + split; [intros [?|?]; auto|]. intros [?|[->|?]]; auto.
    + rewrite elem_of_app, list_elem_of_singleton. tauto.
Qed.

Lemma own_props_app (h h' : heap) v :
  allocated h v → own_props (h ++ h') v = own_props h v.
Proof.
  destruct v as [| | | | |l]; try done. intros Hl. unfold own_props.
  rewrite lookup_app_l; [done|]. by apply Hl.
Qed.

Lemma own_props_lookup (h h' : heap) l :
  h' !! l = h !! l → own_props h' (VRef l) = own_props h (VRef l).
Proof. intros H. unfold own_props. by rewrite H. Qed.

(** X13.  The join of the plain policy of [nest],
    [Object.assign({}, state, values)], writes on nothing that exists: it
    returns a new object and leaves the state of the parent and the values
    of the children as they were.  The new object has the properties of
    both: a property is the one of the values where they have it and the
    one of the state otherwise. *)
Theorem nest_plain_join_merges (this state values : value) (w : world) :
  allocated (store w) state → allocated (store w) values →
  NoDup (keys (store w) state) → NoDup (keys (store w) values) →
  ∃ w',
    Index.join_nest_plain this [state; values] w
    = Ret (VRef (length (store w))) w' ∧
    globals w' = globals w ∧
    (∀ l, l < length (store w) → store w' !! l = store w !! l) ∧
    (∀ k, k ∈ keys (store w') (VRef (length (store w)))
          ↔ k ∈ keys (store w) state ∨ k ∈ keys (store w) values) ∧
    (∀ k, get_prop (store w') (VRef (length (store w))) k
          = if decide (k ∈ keys (store w) values)
            then get_prop (store w) values k
            else get_prop (store w) state k).
Proof.
  intros Hstate Hvalues Hnds Hndv.
  unfold Index.join_nest_plain, Index.object_assign.
  change (arg 0 [state; values]) with state.
  change (arg 1 [state; values]) with values.
  rewrite bind_unfold, alloc_eq, bind_unfold. cbn [foldM].
  rewrite bind_unfold, assign_from_eq, bind_unfold, assign_from_eq.
  cbn [store globals].
  rewrite (own_props_app (store w) _ state Hstate).
  set (n := length (store w)).
  set (h0 := store w ++ [{| callable := false; props := [] |}]).
  assert (n < length h0) as Hn.
  { unfold h0. rewrite length_app. simpl. lia. }
  set (h1 := assign_all n (own_props (store w) state) h0).
  assert (own_props h1 values = own_props (store w) values) as Hv.
  { destruct values as [| | | | |l]; try done.
    pose proof (Hvalues l eq_refl).
    rewrite (own_props_lookup (store w)); [done|]. unfold h1.
    rewrite assign_all_lookup_ne by (unfold n; lia).
    by apply lookup_app_l. }
  rewrite Hv. eexists. split; [reflexivity|]. cbn [store globals].
  split; [done|]. split; [|split].
  - intros l Hl. rewrite assign_all_lookup_ne by (unfold n; lia).
    unfold h1. rewrite assign_all_lookup_ne by (unfold n; lia).
    by apply lookup_app_l.
  - intros k. rewrite assign_all_keys
      by (unfold h1; by rewrite assign_all_length).
    unfold h1. rewrite assign_all_keys by done.
    assert (keys h0 (VRef n) = []) as ->.
    { unfold keys, own_props, h0. rewrite lookup_app_r by (unfold n; lia).
      unfold n. by rewrite Nat.sub_diag. }
    rewrite elem_of_nil. unfold keys. tauto.
  - intros k. rewrite assign_all_get
      by (done || unfold h1; by rewrite assign_all_length).
    unfold h1. rewrite assign_all_get by done.
    assert (get_prop h0 (VRef n) k = VUndefined) as ->.
    { unfold get_prop, own_props, h0. rewrite lookup_app_r by (unfold n; lia).
      unfold n. by rewrite Nat.sub_diag. }
    unfold get_prop, keys. destruct (decide _) as [Hin|Hout].
    + destruct (assoc_get_in _ _ Hin) as (v & -> & _). done.
    + by rewrite (assoc_get_None k (own_props (store w) values)).
Qed.

Lemma nest_plain_join_merges_witness :
  ∃ w',
    Index.join_nest_plain VUndefined [VRef 0; VRef 1] nested_state_world
    = Ret (VRef 2) w' ∧
    get_prop (store w') (VRef 2) "p" = VNum 1 ∧
    get_prop (store w') (VRef 2) "c" = VNum 2 ∧
    store w' !! 0 = store nested_state_world !! 0.
Proof.
  destruct (nest_plain_join_merges VUndefined (VRef 0) (VRef 1)
              nested_state_world)
    as (w' & Hjoin & _ & Hframe & _ & Hget).
  - intros l [= <-]. simpl. lia.
  - intros l [= <-]. simpl. lia.
  - by apply (bool_decide_unpack _).
  - by apply (bool_decide_unpack _).
  - exists w'. split; [exact Hjoin|]. split; [|split].
    + rewrite Hget. reflexivity.
    + rewrite Hget. reflexivity.
    + apply Hframe. simpl. lia.
Defined.

(** ** [dispatcher] *)

Lemma preserves_bind {A B} n (m : M A) (f : A → M B) :
  preserves n m → (∀ a, preserves n (f a)) → preserves n (m ≫= f).
Proof.
  intros Hm Hf w Hn. rewrite bind_unfold.
  destruct (Hm w Hn) as (Hg & Hlen & Hl).
  destruct (m w) as [a w1|e w1]; cbn [world_of] in *; [|done].
  destruct (Hf a w1) as (Hg' & Hlen' & Hl'); [lia|].
  split; [congruence|]. split; [lia|].
  intros l Hlt. by rewrite Hl', Hl.
Qed.

Lemma preserves_mret {A} n (a : A) : preserves n (mret a).
Proof. by intros w Hn. Qed.

Lemma preserves_read {A} n (f : heap → A) : preserves n (read f).
Proof. by intros w Hn. Qed.

Lemma preserves_alloc n o : preserves n (alloc o).
Proof.
  intros w Hn. rewrite alloc_eq. cbn [world_of store globals].
  rewrite length_app. split; [done|]. split; [lia|].
  intros l Hl. apply lookup_app_l. lia.
Qed.

Lemma preserves_set_prop n l k v : n ≤ l → preserves n (set_prop (VRef l) k v).
Proof.
  intros Hl w Hn. rewrite set_prop_ref. cbn [world_of store globals].
  rewrite heap_set_length. split; [done|]. split; [done|].
  intros l' Hl'. apply heap_set_lookup_ne. lia.
Qed.

Lemma preserves_object_keys n v : preserves n (Index.object_keys v).
Proof. destruct v; by intros w Hn. Qed.

Lemma dispatcher_each_preserves n self dispatch actions result ks made :
  (∀ v, preserves n (self v)) → n ≤ result →
  preserves n (Index.dispatcher_each self dispatch actions result ks made).
Proof.
  intros Hself Hres. revert made.
  induction ks as [|key ks IH]; intros made; [apply preserves_mret|].
  cbn [Index.dispatcher_each].
  apply preserves_bind; [apply preserves_read|]. intros value.
  assert (preserves n
    (sub ← self value;
     match sub with
     | Some (nested, made') =>
         set_prop (VRef result) key nested;;
         Index.dispatcher_each self dispatch actions result ks (made ++ made')
     | None => mret None
     end)) as Hnested.
  { apply preserves_bind; [apply Hself|]. intros [[nested made']|].
    - apply preserves_bind; [by apply preserves_set_prop|]. intros _. apply IH.
    - apply preserves_mret. }
  apply preserves_bind; [apply preserves_read|]. intros [|].
  - apply preserves_bind; [apply preserves_read|]. intros handlers.
    destruct (truthy handlers); [exact Hnested|].
    apply preserves_bind; [apply preserves_read|]. intros type.
    destruct (truthy type); [|apply IH].
    apply preserves_bind; [apply preserves_alloc|]. intros i.
    apply preserves_bind; [by apply preserves_set_prop|]. intros _. apply IH.
  - apply preserves_bind; [apply preserves_read|]. intros [|];
      [exact Hnested|apply IH].
Qed.

Lemma dispatcher_preserves n fuel dispatch actions :
  preserves n (Index.dispatcher fuel dispatch actions).
Proof.
  revert actions. induction fuel as [|fuel IH]; intros actions;
    [apply preserves_mret|].
  cbn [Index.dispatcher]. intros w Hn.
  rewrite bind_unfold, alloc_eq.
  set (w1 := {| store := store w ++ [{| callable := false; props := [] |}];
                globals := globals w |}).
  match goal with
  | |- context [world_of (?m w1)] => assert (preserves n m) as Hp
  end.
  { apply preserves_bind; [apply preserves_object_keys|]. intros ks.
    apply preserves_bind; [|intros made; apply preserves_mret].
    by apply dispatcher_each_preserves. }
  destruct (Hp w1) as (Hg & Hlen & Hl).
  { unfold w1. cbn [store]. rewrite length_app. lia. }
  unfold w1 in Hlen at 1. cbn [store] in Hlen. rewrite length_app in Hlen.
  split; [exact Hg|]. split; [lia|].
  intros l Hlt. rewrite Hl by done. apply lookup_app_l. lia.
Qed.

(** X14.  [dispatcher] writes on nothing that exists: whether it returns, throws
    or needs more fuel, every object that existed before the call is as it
    was, the actions and the reducers it walked among them, and the
    registry is as it was. *)
Theorem dispatcher_leaves_actions
    (fuel : nat) (dispatch : jsfun) (actions : value) (w : world) :
  let w' := world_of (Index.dispatcher fuel dispatch actions w) in
  globals w' = globals w ∧
  ∀ l, l < length (store w) → store w' !! l = store w !! l.
Proof.
  cbv zeta.
  destruct (dispatcher_preserves (length (store w)) fuel dispatch actions w)
    as (Hg & _ & Hl); [done|]. by split.
Qed.

Lemma allocated_agree (h h' : heap) v n :
  allocated h v → length h = n →
  (∀ l, l < n → h' !! l = h !! l) →
  is_function h' v = is_function h v ∧
  Index.is_object h' v = Index.is_object h v ∧
  ∀ k, get_prop h' v k = get_prop h v k.
Proof.
  intros Hv Hn Hsame. destruct v as [| | | | |l]; try done.
  pose proof (Hv l eq_refl) as Hl. rewrite Hn in Hl.
  assert (is_function h' (VRef l) = is_function h (VRef l)) as Hf.
  { apply is_function_lookup. by apply Hsame. }
  split; [done|]. split; [by cbn [Index.is_object]; rewrite Hf|].
  intros k. apply get_prop_lookup. by apply Hsame.
Qed.

(** The loop of [dispatcher] over properties none of which it descends
    into. *)
Lemma dispatcher_each_flat self dispatch (h : heap) a n ps ks made wc :
  a < n → n = length h →
  (∀ l, l < n → store wc !! l = h !! l) →
  n < length (store wc) →
  (∀ p, p ∈ ps → get_prop h (VRef a) p.1 = p.2 ∧ allocated h p.2 ∧
                 descends h p.2 = false) →
  NoDup ps.*1 →
  (∀ p, p ∈ ps → p.1 ∉ keys (store wc) (VRef n)) →
  ∃ made' w',
    Index.dispatcher_each self dispatch (VRef a) n (ps.*1 ++ ks) made wc
    = Index.dispatcher_each self dispatch (VRef a) n ks (made ++ made') w' ∧
    globals w' = globals wc ∧
    length (store wc) ≤ length (store w') ∧
    (∀ l, l < length (store wc) → l ≠ n → store w' !! l = store wc !! l) ∧
    keys (store w') (VRef n)
    = keys (store wc) (VRef n) ++ (action_props h ps).*1 ∧
    (∀ k, k ∈ keys (store wc) (VRef n) →
          get_prop (store w') (VRef n) k = get_prop (store wc) (VRef n) k) ∧
    map fn_call made' = map (λ p, Index.invoker dispatch p.2)
                          (action_props h ps) ∧
    Forall2
      (λ p f, get_prop (store w') (VRef n) p.1 = VRef (fn_loc f) ∧
              is_function (store w') (VRef (fn_loc f)) = true ∧
              length (store wc) ≤ fn_loc f)
      (action_props h ps) made'.
Proof.
  intros Ha Hn. revert made wc.
  induction ps as [|[key v] ps IH]; intros made wc Hsame Hlen Hps Hnd Hnew.
  - exists [], wc. rewrite app_nil_r. split; [done|]. split; [done|].
    split; [done|]. split; [done|]. split; [by rewrite app_nil_r|].
    split; [done|]. split; [done|constructor].
  - csimpl in Hnd. apply NoDup_cons in Hnd as [Hkey Hnd].
    destruct (Hps (key, v)) as (Hget & Halloc & Hdesc); [left|].
    cbn [fst snd] in Hget, Halloc, Hdesc.
    assert (∀ p, p ∈ ps → get_prop h (VRef a) p.1 = p.2 ∧ allocated h p.2 ∧
                          descends h p.2 = false) as Hps'.
    { intros p Hp. apply Hps. by right. }
    destruct (allocated_agree h (store wc) v n Halloc (eq_sym Hn) Hsame)
      as (Hfn & Hobj & Hprop).
    csimpl. cbn [Index.dispatcher_each].
    rewrite bind_unfold. cbn [read].
    rewrite (get_prop_lookup h) by (by apply Hsame). rewrite Hget.
    rewrite bind_unfold. cbn [read]. rewrite Hfn.
    unfold descends in Hdesc. apply orb_false_iff in Hdesc as [Hd1 Hd2].
    unfold action_props. cbn [List.filter snd]. unfold is_action.
    (* a value that is left out *)
    assert (
      ∃ made' w',
        Index.dispatcher_each self dispatch (VRef a) n (ps.*1 ++ ks) made wc
        = Index.dispatcher_each self dispatch (VRef a) n ks (made ++ made') w' ∧
        globals w' = globals wc ∧
        length (store wc) ≤ length (store w') ∧
        (∀ l, l < length (store wc) → l ≠ n → store w' !! l = store wc !! l) ∧
        keys (store w') (VRef n)
        = keys (store wc) (VRef n) ++ (action_props h ps).*1 ∧
        (∀ k, k ∈ keys (store wc) (VRef n) →
              get_prop (store w') (VRef n) k = get_prop (store wc) (VRef n) k) ∧
        map fn_call made' = map (λ p, Index.invoker dispatch p.2)
                              (action_props h ps) ∧
        Forall2
          (λ p f, get_prop (store w') (VRef n) p.1 = VRef (fn_loc f) ∧
                  is_function (store w') (VRef (fn_loc f)) = true ∧
                  length (store wc) ≤ fn_loc f)
          (action_props h ps) made') as Hskip.
    { apply IH; [done|done|done|done|].
      intros p Hp. apply Hnew. by right. }
    destruct (is_function h v) eqn:Hf.
    + rewrite bind_unfold. cbn [read]. rewrite Hprop.
      cbn [andb] in Hd1. rewrite Hd1. cbn [negb andb].
      rewrite bind_unfold. cbn [read]. rewrite Hprop.
      destruct (truthy (get_prop h v "type")) eqn:Ht; [|exact Hskip].
      rewrite bind_unfold, alloc_eq, bind_unfold. unfold write.
      cbn [store globals].
      set (i := length (store wc)).
      set (h2 := heap_set n key (VRef i)
                   (store wc ++ [{| callable := true; props := [] |}])).
      set (w2 := {| store := h2; globals := globals wc |}).
      assert (length h2 = S (length (store wc))) as Hlen2.
      { unfold h2. rewrite heap_set_length, length_app. simpl. lia. }
      assert (key ∉ keys (store wc) (VRef n)) as Hfresh.
      { apply (Hnew (key, v)). left. }
      assert (keys h2 (VRef n) = keys (store wc) (VRef n) ++ [key]) as Hkeys2.
      { unfold h2. rewrite keys_heap_set by (rewrite length_app; lia).
        rewrite (keys_lookup (store wc)) by (by apply lookup_app_l).
        by rewrite bool_decide_eq_false_2. }
      destruct (IH (made ++ [{| fn_loc := i;
                                fn_call := Index.invoker dispatch v |}]) w2)
        as (made' & w' & Heq & Hg & Hlen' & Hframe & Hkeys & Hold & Hcalls
            & Hall); [| |done|done| |].
      { intros l Hl. unfold w2, h2. cbn [store].
        rewrite heap_set_lookup_ne by lia.
        rewrite lookup_app_l by lia. by apply Hsame. }
      { unfold w2. cbn [store]. lia. }
      { intros p Hp. unfold w2. cbn [store]. rewrite Hkeys2.
        intros [Hk|Hk%list_elem_of_singleton]%elem_of_app.
        - by apply (Hnew p); [right|].
        - apply Hkey. apply list_elem_of_fmap. by exists p. }
      unfold w2 in *. cbn [store globals] in *.
      exists ({| fn_loc := i; fn_call := Index.invoker dispatch v |} :: made'),
             w'.
      split; [by rewrite Heq, <- app_assoc|]. split; [done|].
      split; [lia|]. split; [|split; [|split; [|split]]].
      * intros l Hl Hne. rewrite Hframe by (done || lia). unfold h2.
        rewrite heap_set_lookup_ne by done. by apply lookup_app_l.
      * rewrite Hkeys, Hkeys2. csimpl. by rewrite <- app_assoc.
      * intros k Hk. rewrite Hold by (rewrite Hkeys2, elem_of_app; by left).
        unfold h2. rewrite get_prop_heap_set_ne by (right; congruence).
        apply get_prop_app_l. lia.
      * csimpl. by rewrite Hcalls.
      * constructor; [|eapply Forall2_impl; [exact Hall|]].
        -- cbv beta. cbn [fst fn_loc]. split; [|split; [|done]].
           ++ rewrite Hold by (rewrite Hkeys2, elem_of_app; right;
                               by apply list_elem_of_singleton).
              unfold h2. apply get_prop_heap_set_eq. rewrite length_app. lia.
           ++ rewrite Hframe by (unfold i; lia). unfold h2.
              rewrite heap_set_lookup_ne by (unfold i; lia).
              rewrite lookup_app_r by (unfold i; lia).
              unfold i. by rewrite Nat.sub_diag.
        -- intros p f (? & ? & ?). split; [done|]. split; [done|lia].
    + cbn [andb negb] in Hd2. rewrite bind_unfold. cbn [read].
      rewrite Hobj, Hd2. exact Hskip.
Qed.

Lemma assoc_get_NoDup {A} k (v : A) ps :
  NoDup ps.*1 → (k, v) ∈ ps → assoc_get k ps = Some v.
Proof.
  induction ps as [|[k' v'] ps IH]; csimpl.
  - by intros _ ?%elem_of_nil.
  - intros [Hk Hnd]%NoDup_cons [[= -> ->]|Hin]%elem_of_cons.
    + by rewrite String.eqb_refl.
    + destruct (String.eqb_spec k' k) as [->|Hne]; [|by apply IH].
      exfalso. apply Hk. apply list_elem_of_fmap. by exists (k, v).
Qed.

Lemma dispatcher_start fuel dispatch a w :
  Index.dispatcher (S fuel) dispatch (VRef a) w
  = (made ← Index.dispatcher_each (Index.dispatcher fuel dispatch) dispatch
              (VRef a) (length (store w))
              (keys (store w ++ [{| callable := false; props := [] |}])
                 (VRef a)) [];
     mret (option_map (λ made, (VRef (length (store w)), made)) made))
      {| store := store w ++ [{| callable := false; props := [] |}];
         globals := globals w |}.
Proof.
  cbn [Index.dispatcher]. rewrite bind_unfold, alloc_eq.
  rewrite bind_unfold. cbn [Index.object_keys read store]. done.
Qed.

(** X15.  [dispatcher], given an object none of whose properties it descends
    into, returns a new object with one invoker for every property that is
    an action, a function with a [type], under the key of the action and in
    the order of the properties; the other properties are left out.  The
    invoker of an action is a new function that passes to [dispatch] a copy
    of its argument with the [type] of the action. *)
Theorem dispatcher_flat_actions
    (fuel : nat) (dispatch : jsfun) (a : loc) (w : world) :
  a < length (store w) →
  NoDup (keys (store w) (VRef a)) →
  (∀ p, p ∈ own_props (store w) (VRef a) →
        allocated (store w) p.2 ∧ descends (store w) p.2 = false) →
  ∃ made w',
    Index.dispatcher (S fuel) dispatch (VRef a) w
    = Ret (Some (VRef (length (store w)), made)) w' ∧
    keys (store w') (VRef (length (store w)))
    = (action_props (store w) (own_props (store w) (VRef a))).*1 ∧
    map fn_call made
    = map (λ p, Index.invoker dispatch p.2)
        (action_props (store w) (own_props (store w) (VRef a))) ∧
    Forall2
      (λ p f, get_prop (store w') (VRef (length (store w))) p.1
              = VRef (fn_loc f) ∧
              is_function (store w') (VRef (fn_loc f)) = true ∧
              length (store w) < fn_loc f)
      (action_props (store w) (own_props (store w) (VRef a))) made.
Proof.
  intros Ha Hnd Hps. rewrite dispatcher_start.
  rewrite (keys_lookup (store w)
             (store w ++ [{| callable := false; props := [] |}]) a)
    by (by apply lookup_app_l).
  set (n := length (store w)).
  set (w1 := {| store := store w ++ [{| callable := false; props := [] |}];
                globals := globals w |}).
  set (ps := own_props (store w) (VRef a)) in *.
  replace (keys (store w) (VRef a)) with (ps.*1 ++ [])
    by (by rewrite app_nil_r).
  assert (keys (store w1) (VRef n) = []) as Hkeys1.
  { unfold keys, own_props, w1. cbn [store].
    rewrite lookup_app_r by (unfold n; lia). unfold n.
    by rewrite Nat.sub_diag. }
  rewrite bind_unfold.
  destruct (dispatcher_each_flat (Index.dispatcher fuel dispatch) dispatch
              (store w) a n ps [] [] w1)
    as (made & w' & -> & _ & Hlen & _ & Hkeys & _ & Hcalls & Hall).
  - done.
  - done.
  - intros l Hl. unfold w1. cbn [store]. by apply lookup_app_l.
  - unfold w1. cbn [store]. rewrite length_app. simpl. lia.
  - intros [k v] Hp. destruct (Hps _ Hp) as [Halloc Hdesc].
    split; [|done]. cbn [fst snd]. unfold get_prop. fold ps.
    by rewrite (assoc_get_NoDup k v ps).
  - done.
  - intros p _. rewrite Hkeys1. apply not_elem_of_nil.
  - cbn [Index.dispatcher_each app]. exists made, w'.
    split; [done|]. split; [by rewrite Hkeys, Hkeys1|]. split; [done|].
    eapply Forall2_impl; [exact Hall|].
    intros p f (? & ? & Hf). split; [done|]. split; [done|].
    unfold w1 in Hf. cbn [store] in Hf. rewrite length_app in Hf.
    simpl in Hf. lia.
Qed.

(** X16.  [dispatcher] throws when it comes to a property that is [null]: for
    [typeof], [null] is an object, and [dispatcher] descends into it. *)
Theorem dispatcher_throws_on_null
    (fuel : nat) (dispatch : jsfun) (a : loc) (w : world)
    (pre post : list (string * value)) (key : string) :
  a < length (store w) →
  own_props (store w) (VRef a) = pre ++ (key, VNull) :: post →
  NoDup (keys (store w) (VRef a)) →
  (∀ p, p ∈ pre → allocated (store w) p.2 ∧ descends (store w) p.2 = false) →
  ∃ w', Index.dispatcher (S (S fuel)) dispatch (VRef a) w = Throw TypeError w'.
Proof.
  intros Ha Hprops Hnd Hpre. rewrite dispatcher_start.
  rewrite (keys_lookup (store w)
             (store w ++ [{| callable := false; props := [] |}]) a)
    by (by apply lookup_app_l).
  set (n := length (store w)).
  set (w1 := {| store := store w ++ [{| callable := false; props := [] |}];
                globals := globals w |}).
  replace (keys (store w) (VRef a)) with (pre.*1 ++ key :: post.*1)
    by (unfold keys; by rewrite Hprops, fmap_app).
  assert (keys (store w1) (VRef n) = []) as Hkeys1.
  { unfold keys, own_props, w1. cbn [store].
    rewrite lookup_app_r by (unfold n; lia). unfold n.
    by rewrite Nat.sub_diag. }
  unfold keys in Hnd. rewrite Hprops, fmap_app in Hnd.
  rewrite bind_unfold.
  destruct (dispatcher_each_flat (Index.dispatcher (S fuel) dispatch) dispatch
              (store w) a n pre (key :: post.*1) [] w1)
    as (made & w' & -> & _ & Hlen & Hframe & _).
  - done.
  - done.
  - intros l Hl. unfold w1. cbn [store]. by apply lookup_app_l.
  - unfold w1. cbn [store]. rewrite length_app. simpl. lia.
  - intros [k v] Hp. destruct (Hpre _ Hp) as [Halloc Hdesc].
    split; [|done]. cbn [fst snd]. unfold get_prop. rewrite Hprops.
    rewrite (assoc_get_NoDup k v); [done|by rewrite fmap_app|].
    apply elem_of_app. by left.
  - by apply NoDup_app in Hnd as (? & _ & _).
  - intros p _. rewrite Hkeys1. apply not_elem_of_nil.
  - cbn [Index.dispatcher_each]. rewrite bind_unfold. cbn [read].
    assert (get_prop (store w') (VRef a) key = VNull) as ->.
    { rewrite (get_prop_lookup (store w1))
        by (apply Hframe; unfold w1; cbn [store];
            [rewrite length_app; lia|unfold n; lia]).
      unfold w1. cbn [store]. rewrite get_prop_app_l by done.
      unfold get_prop. rewrite Hprops.
      rewrite (assoc_get_NoDup key VNull); [done|by rewrite fmap_app|].
      apply elem_of_app. right. left. }
    rewrite bind_unfold. cbn [read is_function].
    rewrite bind_unfold. cbn [read Index.is_object].
    rewrite bind_unfold. cbn [Index.dispatcher].
    rewrite bind_unfold, alloc_eq, bind_unfold.
    cbn [Index.object_keys]. by eexists.
Qed.

Lemma dispatcher_flat_actions_witness :
  ∃ made w',
    Index.dispatcher 1 keep (VRef 0) actions_world
    = Ret (Some (VRef 4, made)) w' ∧
    keys (store w') (VRef 4) = ["add"] ∧
    map fn_call made = [Index.invoker keep (VRef 1)].
Proof.
  destruct (dispatcher_flat_actions 0 keep 0 actions_world)
    as (made & w' & Hd & Hkeys & Hcalls & _).
  - simpl. lia.
  - by apply (bool_decide_unpack _).
  - intros p Hp.
    repeat (apply elem_of_cons in Hp as [->|Hp];
            [first [split; [intros l [= <-]; simpl; lia|reflexivity]
                   |split; [by intros l [=]|reflexivity]]
            |]).
    by apply elem_of_nil in Hp.
  - exists made, w'. split; [exact Hd|]. split; [exact Hkeys|exact Hcalls].
Defined.

Lemma dispatcher_throws_on_null_witness :
  ∃ w', Index.dispatcher 2 keep (VRef 3) actions_world = Throw TypeError w'.
Proof.
  apply (dispatcher_throws_on_null 0 keep 3 actions_world
           [("count", VNum 3)] [] "nothing").
  - simpl. lia.
  - reflexivity.
  - by apply (bool_decide_unpack _).
  - intros p Hp. apply elem_of_cons in Hp as [->|Hp].
    + split; [by intros l [=]|reflexivity].
    + by apply elem_of_nil in Hp.
Defined.

(** ** [Actionize.dispatcher] *)

Lemma dispatcherLevel_each_preserves n self dispatch actions result ks p made :
  (∀ v p, preserves n (self v p)) → n ≤ result →
  preserves n
    (Actionize.dispatcherLevel_each self dispatch actions result ks p made).
Proof.
  intros Hself Hres. revert p made.
  induction ks as [|key ks IH]; intros p made; [apply preserves_mret|].
  cbn [Actionize.dispatcherLevel_each].
  apply preserves_bind; [apply preserves_read|]. intros value.
  destruct (Actionize.processed_find value p) as [r|].
  { apply preserves_bind; [by apply preserves_set_prop|]. intros _. apply IH. }
  apply preserves_bind; [apply preserves_read|]. intros is_fn.
  apply preserves_bind; [apply preserves_read|]. intros type.
  destruct (is_fn && truthy type).
  { apply preserves_bind; [apply preserves_alloc|]. intros i.
    apply preserves_bind; [by apply preserves_set_prop|]. intros _. apply IH. }
  apply preserves_bind; [apply preserves_read|]. intros is_obj.
  destruct (is_fn || is_obj); [|apply IH].
  apply preserves_bind; [apply Hself|]. intros [[[nested p'] made']|];
    [|apply preserves_mret].
  apply preserves_bind; [apply preserves_read|]. intros [|k ks']; [apply IH|].
  apply preserves_bind; [by apply preserves_set_prop|]. intros _. apply IH.
Qed.

Lemma dispatcherLevel_preserves n fuel dispatch actions p :
  preserves n (Actionize.dispatcherLevel fuel dispatch actions p).
Proof.
  revert actions p. induction fuel as [|fuel IH]; intros actions p;
    [apply preserves_mret|].
  cbn [Actionize.dispatcherLevel]. intros w Hn.
  rewrite bind_unfold, alloc_eq.
  set (w1 := {| store := store w ++ [{| callable := false; props := [] |}];
                globals := globals w |}).
  match goal with
  | |- context [world_of (?m w1)] => assert (preserves n m) as Hp
  end.
  { apply preserves_bind; [apply preserves_object_keys|]. intros ks.
    apply preserves_bind; [|intros made; apply preserves_mret].
    by apply dispatcherLevel_each_preserves. }
  destruct (Hp w1) as (Hg & Hlen & Hl).
  { unfold w1. cbn [store]. rewrite length_app. lia. }
  unfold w1 in Hlen at 1. cbn [store] in Hlen. rewrite length_app in Hlen.
  split; [exact Hg|]. split; [lia|].
  intros l Hlt. rewrite Hl by done. apply lookup_app_l. lia.
Qed.

(** X17.  [Actionize.dispatcher] writes on nothing that exists: whether it
    returns, throws or needs more fuel, every object that existed before
    the call is as it was, and the registry is as it was. *)
Theorem actionize_dispatcher_leaves_actions
    (fuel : nat) (dispatch : jsfun) (actions : value) (w : world) :
  let w' := world_of (Actionize.dispatcher fuel dispatch actions w) in
  globals w' = globals w ∧
  ∀ l, l < length (store w) → store w' !! l = store w !! l.
Proof.
  cbv zeta.
  assert (preserves (length (store w))
            (Actionize.dispatcher fuel dispatch actions)) as Hp.
  { apply preserves_bind; [apply dispatcherLevel_preserves|].
    intros r. apply preserves_mret. }
  destruct (Hp w) as (Hg & _ & Hl); [done|]. by split.
Qed.

Lemma processed_find_app v p q :
  Actionize.processed_find v (p ++ q)
  = match Actionize.processed_find v p with
    | Some r => Some r
    | None => Actionize.processed_find v q
    end.
Proof.
  induction p as [|[item r] p IH]; [done|]. cbn.
  by destruct (strict_eq item v).
Qed.

Lemma processed_find_typed dispatch h n h' p made v r :
  invokers_of dispatch h n h' p made →
  Actionize.processed_find v p = Some r → is_typed h v = true.
Proof.
  intros [Hinv _]. revert Hinv.
  induction 1 as [|[item x] f p made (_ & _ & _ & _ & Ht) _ IH]; [done|].
  cbn. unfold strict_eq. case_bool_decide as Heq; [|exact IH].
  intros _. by rewrite <- Heq.
Qed.

Lemma invokers_of_mono dispatch h n h1 h2 p made :
  (∀ l, n < l → l < length h1 → h2 !! l = h1 !! l) →
  invokers_of dispatch h n h1 p made → invokers_of dispatch h n h2 p made.
Proof.
  intros Hsame [Hinv Hnd]. split; [|done].
  eapply Forall2_impl; [exact Hinv|].
  intros e f (He & Hcall & Hn & Hfun & Ht).
  split; [done|]. split; [done|]. split; [done|]. split; [|done].
  rewrite <- Hfun. apply is_function_lookup. apply Hsame; [done|].
  unfold is_function in Hfun.
  destruct (h1 !! fn_loc f) eqn:E; [|done]. by eapply lookup_lt_Some.
Qed.

Lemma processed_find_elem v p r :
  Actionize.processed_find v p = Some r → (v, r) ∈ p.
Proof.
  induction p as [|[item x] p IH]; [done|]. cbn.
  unfold strict_eq. case_bool_decide as Heq.
  - intros [= ->]. rewrite Heq. left.
  - intros H. right. by apply IH.
Qed.

Lemma invokers_of_bound dispatch h n h' p made e :
  invokers_of dispatch h n h' p made → e ∈ p →
  ∃ f, f ∈ made ∧ e.2 = VRef (fn_loc f) ∧
       fn_call f = Index.invoker dispatch e.1 ∧ n < fn_loc f ∧
       fn_loc f < length h' ∧ is_function h' (VRef (fn_loc f)) = true.
Proof.
  intros [Hinv _] [i Hi]%list_elem_of_lookup_1.
  destruct (Forall2_lookup_l _ _ _ _ _ Hinv Hi)
    as (f & Hf & H2 & Hcall & Hn & Hfun & _).
  exists f. split; [by eapply list_elem_of_lookup_2|].
  do 3 (split; [done|]). split; [|done].
  unfold is_function in Hfun.
  destruct (h' !! fn_loc f) eqn:E; [|done]. by eapply lookup_lt_Some.
Qed.

(** The loop of [Actionize.dispatcher] over properties none of which it
    descends into. *)
Lemma dispatcherLevel_each_flat self dispatch (h : heap) a n ps ks p made wc :
  a < n → n = length h →
  (∀ l, l < n → store wc !! l = h !! l) →
  n < length (store wc) →
  (∀ q, q ∈ ps → get_prop h (VRef a) q.1 = q.2 ∧ allocated h q.2 ∧
                 level_descends h q.2 = false) →
  NoDup ps.*1 →
  (∀ q, q ∈ ps → q.1 ∉ keys (store wc) (VRef n)) →
  invokers_of dispatch h n (store wc) p made →
  ∃ p' made' w',
    Actionize.dispatcherLevel_each self dispatch (VRef a) n (ps.*1 ++ ks)
      p made wc
    = Actionize.dispatcherLevel_each self dispatch (VRef a) n ks
        (p ++ p') (made ++ made') w' ∧
    globals w' = globals wc ∧
    length (store wc) ≤ length (store w') ∧
    (∀ l, l < length (store wc) → l ≠ n → store w' !! l = store wc !! l) ∧
    keys (store w') (VRef n)
    = keys (store wc) (VRef n)
      ++ (List.filter (λ q, is_typed h q.2) ps).*1 ∧
    (∀ k, k ∈ keys (store wc) (VRef n) →
          get_prop (store w') (VRef n) k = get_prop (store wc) (VRef n) k) ∧
    invokers_of dispatch h n (store w') (p ++ p') (made ++ made') ∧
    (∀ q, q ∈ ps → is_typed h q.2 = true →
       ∃ r, Actionize.processed_find q.2 (p ++ p') = Some r ∧
            get_prop (store w') (VRef n) q.1 = r).
Proof.
  intros Ha Hn. revert p made wc.
  induction ps as [|[key v] ps IH];
    intros p made wc Hsame Hlen Hps Hnd Hnew Hinv.
  - exists [], [], wc. rewrite !app_nil_r. split; [done|]. split; [done|].
    split; [done|]. split; [done|]. split; [done|].
    split; [done|]. split; [done|]. by intros q ?%elem_of_nil.
  - csimpl in Hnd. apply NoDup_cons in Hnd as [Hkey Hnd].
    destruct (Hps (key, v)) as (Hget & Halloc & Hdesc); [left|].
    cbn [fst snd] in Hget, Halloc, Hdesc.
    assert (∀ q, q ∈ ps → get_prop h (VRef a) q.1 = q.2 ∧ allocated h q.2 ∧
                          level_descends h q.2 = false) as Hps'.
    { intros q Hq. apply Hps. by right. }
    destruct (allocated_agree h (store wc) v n Halloc (eq_sym Hn) Hsame)
      as (Hfn & Hobj & Hprop).
    assert (key ∉ keys (store wc) (VRef n)) as Hfresh.
    { apply (Hnew (key, v)). left. }
    csimpl. cbn [Actionize.dispatcherLevel_each].
    rewrite bind_unfold. cbn [read].
    rewrite (get_prop_lookup h) by (by apply Hsame). rewrite Hget.
    cbn [List.filter snd].
    (* the continuation after [result[key] = r], with [v] processed *)
    assert (∀ r p1 made1 h2,
      is_typed h v = true →
      h2 = heap_set n key r (store wc) ∨
      h2 = heap_set n key r
             (store wc ++ [{| callable := true; props := [] |}]) →
      Actionize.processed_find v p1 = Some r →
      (∃ p0 made0, p1 = p ++ p0 ∧ made1 = made ++ made0) →
      invokers_of dispatch h n h2 p1 made1 →
      ∃ p' made' w',
        Actionize.dispatcherLevel_each self dispatch (VRef a) n
          (ps.*1 ++ ks) p1 made1 {| store := h2; globals := globals wc |}
        = Actionize.dispatcherLevel_each self dispatch (VRef a) n ks
            (p ++ p') (made ++ made') w' ∧
        globals w' = globals wc ∧
        length (store wc) ≤ length (store w') ∧
        (∀ l, l < length (store wc) → l ≠ n →
              store w' !! l = store wc !! l) ∧
        keys (store w') (VRef n)
        = keys (store wc) (VRef n)
          ++ key :: (List.filter (λ q, is_typed h q.2) ps).*1 ∧
        (∀ k, k ∈ keys (store wc) (VRef n) →
              get_prop (store w') (VRef n) k
              = get_prop (store wc) (VRef n) k) ∧
        invokers_of dispatch h n (store w') (p ++ p') (made ++ made') ∧
        (∀ q, q ∈ (key, v) :: ps → is_typed h q.2 = true →
           ∃ r, Actionize.processed_find q.2 (p ++ p') = Some r ∧
                get_prop (store w') (VRef n) q.1 = r)) as Hset.
    { intros r p1 made1 h2 Htyped Hh2 Hfind (p0 & made0 & -> & ->) Hinv2.
      assert (length (store wc) ≤ length h2 ∧
              (∀ l, l < length (store wc) → l ≠ n → h2 !! l = store wc !! l) ∧
              keys h2 (VRef n) = keys (store wc) (VRef n) ++ [key] ∧
              get_prop h2 (VRef n) key = r ∧
              (∀ k, k ∈ keys (store wc) (VRef n) →
                 get_prop h2 (VRef n) k = get_prop (store wc) (VRef n) k))
        as (Hlen2 & Hsame2 & Hkeys2 & Hget2 & Hold2).
      { destruct Hh2 as [-> | ->].
        - rewrite heap_set_length. split; [done|]. split.
          { intros l Hl Hne. by apply heap_set_lookup_ne. }
          split.
          { rewrite keys_heap_set by lia.
            by rewrite bool_decide_eq_false_2. }
          split; [by apply get_prop_heap_set_eq; lia|].
          intros k Hk. apply get_prop_heap_set_ne. right. congruence.
        - rewrite heap_set_length, length_app. split; [lia|]. split.
          { intros l Hl Hne. rewrite heap_set_lookup_ne by done.
            by apply lookup_app_l. }
          split.
          { rewrite keys_heap_set by (rewrite length_app; lia).
            rewrite (keys_lookup (store wc)) by (apply lookup_app_l; lia).
            by rewrite bool_decide_eq_false_2. }
          split; [apply get_prop_heap_set_eq; rewrite length_app; lia|].
          intros k Hk. rewrite get_prop_heap_set_ne by (right; congruence).
          apply get_prop_app_l. lia. }
      destruct (IH (p ++ p0) (made ++ made0)
                  {| store := h2; globals := globals wc |})
        as (p' & made' & w' & Heq & Hg & Hlen' & Hframe & Hkeys & Hold
            & Hinv' & Hres); cbn [store globals].
      { intros l Hl. rewrite Hsame2 by lia. by apply Hsame. }
      { lia. }
      { done. }
      { done. }
      { intros q Hq. rewrite Hkeys2.
        intros [Hk|Hk%list_elem_of_singleton]%elem_of_app.
        - by apply (Hnew q); [right|].
        - apply Hkey. apply list_elem_of_fmap. by exists q. }
      { done. }
      cbn [store globals] in *.
      exists (p0 ++ p'), (made0 ++ made'), w'. rewrite !app_assoc.
      split; [done|]. split; [done|]. split; [lia|].
      split; [|split; [|split; [|split; [done|]]]].
      - intros l Hl Hne. rewrite Hframe by (done || lia). by apply Hsame2.
      - rewrite Hkeys, Hkeys2. by rewrite <- app_assoc.
      - intros k Hk. rewrite Hold by (rewrite Hkeys2, elem_of_app; by left).
        by apply Hold2.
      - intros q [->|Hq]%elem_of_cons Hq2; [|by apply Hres].
        cbn [fst snd]. exists r. split.
        + rewrite processed_find_app. by rewrite Hfind.
        + rewrite Hold by (rewrite Hkeys2, elem_of_app; right;
                           by apply list_elem_of_singleton).
          done. }
    destruct (Actionize.processed_find v p) as [r|] eqn:Hfind.
    + (* the value has been processed *)
      pose proof (processed_find_typed _ _ _ _ _ _ _ _ Hinv Hfind) as Htyped.
      rewrite Htyped. csimpl. unfold write.
      apply (Hset r p made (heap_set n key r (store wc)));
        [done|by left|done|by exists [], []; rewrite !app_nil_r|].
      eapply invokers_of_mono; [|exact Hinv].
      intros l Hl _. apply heap_set_lookup_ne. lia.
    + rewrite bind_unfold. cbn [read]. rewrite Hfn.
      rewrite bind_unfold. cbn [read]. rewrite Hprop.
      fold (is_typed h v).
      destruct (is_typed h v) eqn:Htyped.
      * (* an action: a new invoker *)
        csimpl. rewrite bind_unfold, alloc_eq, bind_unfold.
        unfold write. cbn [store globals].
        eapply (Hset (VRef (length (store wc))));
          [done|by right| |by eexists [_], [_]|].
        { rewrite processed_find_app, Hfind. cbn.
          unfold strict_eq. by rewrite bool_decide_eq_true_2. }
        assert (invokers_of dispatch h n
                  (heap_set n key (VRef (length (store wc)))
                     (store wc ++ [{| callable := true; props := [] |}]))
                  p made) as [Hinv1 Hnd1].
        { eapply invokers_of_mono; [|exact Hinv].
          intros l Hl Hl'. rewrite heap_set_lookup_ne by lia.
          by apply lookup_app_l. }
        split.
        { apply Forall2_app; [done|].
          constructor; [|constructor]. cbn [fst snd fn_loc fn_call].
          split; [done|]. split; [done|]. split; [lia|]. split; [|done].
          unfold is_function. rewrite heap_set_lookup_ne by lia.
          rewrite lookup_app_r by lia. by rewrite Nat.sub_diag. }
        rewrite fmap_app. apply NoDup_app. split; [done|].
        split; [|apply NoDup_singleton].
        intros x [e [-> He]]%list_elem_of_fmap Hx%list_elem_of_singleton.
        destruct (invokers_of_bound _ _ _ _ _ _ _ Hinv He)
          as (f & _ & H2 & _ & _ & Hlt & _).
        rewrite H2 in Hx. cbn [snd] in Hx. injection Hx as Hx. lia.
      * (* a value that is left out *)
        unfold level_descends in Hdesc. rewrite Htyped in Hdesc.
        cbn [negb andb] in Hdesc.
        rewrite bind_unfold. cbn [read]. rewrite Hobj, Hdesc.
        destruct (IH p made wc) as (p' & made' & w' & Heq & Hrest);
          [done|done|done|done| |done|].
        { intros q Hq. apply Hnew. by right. }
        exists p', made', w'. split; [done|].
        destruct Hrest as (? & ? & ? & ? & ? & ? & Hres).
        do 6 (split; [done|]).
        intros q [->|Hq]%elem_of_cons Hq2; [|by apply Hres].
        cbn [snd] in Hq2. congruence.
Qed.

Lemma NoDup_snd_inj {A B} (l : list (A * B)) a b r :
  NoDup l.*2 → (a, r) ∈ l → (b, r) ∈ l → a = b.
Proof.
  induction l as [|[x y] l IH]; [by intros _ ?%elem_of_nil|].
  csimpl. intros [Hy Hnd]%NoDup_cons.
  intros [Ha|Ha]%elem_of_cons [Hb|Hb]%elem_of_cons.
  - congruence.
  - injection Ha as -> ->. destruct Hy. apply list_elem_of_fmap.
    by exists (b, y).
  - injection Hb as -> ->. destruct Hy. apply list_elem_of_fmap.
    by exists (a, y).
  - by apply IH.
Qed.

Lemma actionize_dispatcher_start fuel dispatch a w :
  Actionize.dispatcher (S fuel) dispatch (VRef a) w
  = (r ← Actionize.dispatcherLevel_each
           (Actionize.dispatcherLevel fuel dispatch) dispatch
           (VRef a) (length (store w))
           (keys (store w ++ [{| callable := false; props := [] |}])
              (VRef a)) [] [];
     mret (option_map (λ r, (VRef (length (store w)), r.2)) r))
      {| store := store w ++ [{| callable := false; props := [] |}];
         globals := globals w |}.
Proof.
  unfold Actionize.dispatcher. cbn [Actionize.dispatcherLevel].
  rewrite !bind_unfold, alloc_eq.
  rewrite bind_unfold. cbn [Index.object_keys read store].
  rewrite bind_unfold.
  destruct (Actionize.dispatcherLevel_each _ _ _ _ _ _ _ _)
    as [[[? ?]|] ?|]; done.
Qed.

Lemma actionize_dispatcher_flat
    (fuel : nat) (dispatch : jsfun) (a : loc) (w : world) :
  a < length (store w) →
  NoDup (keys (store w) (VRef a)) →
  (∀ p, p ∈ own_props (store w) (VRef a) →
        allocated (store w) p.2 ∧ level_descends (store w) p.2 = false) →
  let typed := List.filter (λ p, is_typed (store w) p.2)
                 (own_props (store w) (VRef a)) in
  let result := VRef (length (store w)) in
  ∃ made w',
    Actionize.dispatcher (S fuel) dispatch (VRef a) w
    = Ret (Some (result, made)) w' ∧
    length (store w) < length (store w') ∧
    (∀ l, l < length (store w) → store w' !! l = store w !! l) ∧
    keys (store w') result = typed.*1 ∧
    (∀ p, p ∈ typed →
       ∃ f, f ∈ made ∧
            get_prop (store w') result p.1 = VRef (fn_loc f) ∧
            fn_call f = Index.invoker dispatch p.2 ∧
            is_function (store w') (VRef (fn_loc f)) = true ∧
            length (store w) < fn_loc f) ∧
    (∀ p q, p ∈ typed → q ∈ typed →
       get_prop (store w') result p.1 = get_prop (store w') result q.1
       ↔ p.2 = q.2).
Proof.
  intros Ha Hnd Hps typed result. rewrite actionize_dispatcher_start.
  rewrite (keys_lookup (store w)
             (store w ++ [{| callable := false; props := [] |}]) a)
    by (by apply lookup_app_l).
  unfold result, typed. clear result typed.
  set (n := length (store w)).
  set (w1 := {| store := store w ++ [{| callable := false; props := [] |}];
                globals := globals w |}).
  set (ps := own_props (store w) (VRef a)) in *.
  replace (keys (store w) (VRef a)) with (ps.*1 ++ [])
    by (by rewrite app_nil_r).
  assert (keys (store w1) (VRef n) = []) as Hkeys1.
  { unfold keys, own_props, w1. cbn [store].
    rewrite lookup_app_r by (unfold n; lia). unfold n.
    by rewrite Nat.sub_diag. }
  rewrite bind_unfold.
  destruct (dispatcherLevel_each_flat
              (Actionize.dispatcherLevel fuel dispatch) dispatch
              (store w) a n ps [] [] [] w1)
    as (P & made & w' & -> & _ & Hlen & Hframe & Hkeys & _ & Hinv & Hres).
  - done.
  - done.
  - intros l Hl. unfold w1. cbn [store]. by apply lookup_app_l.
  - unfold w1. cbn [store]. rewrite length_app. simpl. lia.
  - intros [k v] Hp. destruct (Hps _ Hp) as [Halloc Hdesc].
    split; [|done]. cbn [fst snd]. unfold get_prop. fold ps.
    by rewrite (assoc_get_NoDup k v ps).
  - done.
  - intros p _. rewrite Hkeys1. apply not_elem_of_nil.
  - split; [constructor|constructor].
  - cbn [Actionize.dispatcherLevel_each app] in *.
    exists made, w'. split; [done|].
    split; [unfold w1 in Hlen; cbn [store] in Hlen;
            rewrite length_app in Hlen; simpl in Hlen; lia|].
    split.
    { intros l Hl. rewrite Hframe.
      - unfold w1. cbn [store]. by apply lookup_app_l.
      - unfold w1. cbn [store]. rewrite length_app. lia.
      - unfold n. lia. }
    split; [by rewrite Hkeys, Hkeys1|].
    assert (∀ p, p ∈ List.filter (λ p, is_typed (store w) p.2) ps →
              ∃ r, Actionize.processed_find p.2 P = Some r ∧
                   get_prop (store w') (VRef n) p.1 = r) as Hres'.
    { intros p Hp. apply list_elem_of_In, filter_In in Hp as [Hp Ht].
      apply Hres; [by apply list_elem_of_In|done]. }
    split.
    + intros p Hp. destruct (Hres' p Hp) as (r & Hfind & Hget).
      destruct (invokers_of_bound _ _ _ _ _ _ _ Hinv
                  (processed_find_elem _ _ _ Hfind))
        as (f & Hf & H2 & Hcall & Hn & _ & Hfun).
      exists f. cbn [fst snd] in *.
      split; [done|]. split; [congruence|]. done.
    + intros p q Hp Hq.
      destruct (Hres' p Hp) as (rp & Hfp & ->).
      destruct (Hres' q Hq) as (rq & Hfq & ->).
      split.
      * intros <-. destruct Hinv as [_ HndP].
        eapply (NoDup_snd_inj P); [done| |];
          by apply processed_find_elem.
      * intros Heq. rewrite Heq in Hfp. congruence.
Qed.


(** X18.  [Actionize.dispatcher], given an object none of whose properties it
    descends into, returns a new object whose keys are the keys of the
    actions, the functions with a [type], in the order of the properties.
    Each holds an invoker, a new function that passes to [dispatch] a copy
    of its argument with the [type] of the action, and two keys hold the
    same invoker exactly when they stand for the same function. *)
Theorem actionize_dispatcher_shares_invokers
    (fuel : nat) (dispatch : jsfun) (a : loc) (w : world) :
  a < length (store w) →
  NoDup (keys (store w) (VRef a)) →
  (∀ p, p ∈ own_props (store w) (VRef a) →
        allocated (store w) p.2 ∧ level_descends (store w) p.2 = false) →
  let typed := List.filter (λ p, is_typed (store w) p.2)
                 (own_props (store w) (VRef a)) in
  let result := VRef (length (store w)) in
  ∃ made w',
    Actionize.dispatcher (S fuel) dispatch (VRef a) w
    = Ret (Some (result, made)) w' ∧
    keys (store w') result = typed.*1 ∧
    (∀ p, p ∈ typed →
       ∃ f, f ∈ made ∧
            get_prop (store w') result p.1 = VRef (fn_loc f) ∧
            fn_call f = Index.invoker dispatch p.2 ∧
            is_function (store w') (VRef (fn_loc f)) = true ∧
            length (store w) < fn_loc f) ∧
    (∀ p q, p ∈ typed → q ∈ typed →
       get_prop (store w') result p.1 = get_prop (store w') result q.1
       ↔ p.2 = q.2).
Proof.
  intros Ha Hnd Hps.
  destruct (actionize_dispatcher_flat fuel dispatch a w Ha Hnd Hps)
    as (made & w' & Hd & _ & _ & H).
  by exists made, w'.
Qed.

Lemma actionize_dispatcher_shares_invokers_witness :
  ∃ made w',
    Actionize.dispatcher 1 keep (VRef 0) shared_actions_world
    = Ret (Some (VRef 3, made)) w' ∧
    keys (store w') (VRef 3) = ["add"; "plus"; "sub"] ∧
    get_prop (store w') (VRef 3) "add" = get_prop (store w') (VRef 3) "plus" ∧
    get_prop (store w') (VRef 3) "add" ≠ get_prop (store w') (VRef 3) "sub".
Proof.
  destruct (actionize_dispatcher_shares_invokers 0 keep 0
              shared_actions_world)
    as (made & w' & Hd & Hkeys & _ & Hshare).
  - simpl. lia.
  - by apply (bool_decide_unpack _).
  - intros p Hp.
    repeat (apply elem_of_cons in Hp as [->|Hp];
            [first [split; [intros l [= <-]; simpl; lia|reflexivity]
                   |split; [by intros l [=]|reflexivity]]
            |]).
    by apply elem_of_nil in Hp.
  - exists made, w'. split; [exact Hd|]. split; [exact Hkeys|].
    split.
    + apply (Hshare ("add", VRef 1) ("plus", VRef 1));
        [by apply (bool_decide_unpack _)..|done].
    + intros Heq.
      apply (Hshare ("add", VRef 1) ("sub", VRef 2)) in Heq;
        [done|by apply (bool_decide_unpack _)..].
Defined.





